(** * Solo secret entry: the [SoloLayout] widget of [electrum/gui/qt/seed_dialog.py]

    A shallow embedding of [SoloLayout] (validation of the entered secrets,
    recomputation of the private key, comparison with the entered address)
    and of the wiring of the wizard's buttons around it.

    Python state (the layout object, the wizard's buttons and event loop) is
    threaded explicitly; calls into [electrum.solo], [electrum.bitcoin] and
    the wizard are logged in a chronological trace, so that a statement can
    speak about which call was made with which argument, and in which order.

    A Python [str] is a [string], one [ascii] per character, so that [len]
    is [String.length]; a Python [int] is a [Z]. *)

From Stdlib Require Import String Ascii List ZArith Bool Lia DecimalString FinFun.
From Stdlib Require Import Orders Mergesort Sorted Permutation.
Import ListNotations.
Local Open Scope string_scope.

(** ** Functions imported by the module

    [electrum.solo] and [electrum.bitcoin] are not part of the verified
    file; the layout only calls them.  They are taken as parameters: total
    functions on the values the layout hands them. *)
Class Externals : Type := {
  verify_solo_check : string -> bool;
  is_base58 : string -> bool;
  is_address : string -> bool;
  reconstruct : list (Z * string) -> nat -> string;
  compute_privatekey_bitcoin : string -> string -> string;
  address_from_private_key : string -> string
}.

(** ** Data *)

(** One entry of [self.solos]: the dict
    [{"cb": cb_number, "secret1": secret1, "secret2": secret2}].
    [cb] is [None] when no combo box was created ([number_solo = 1]),
    otherwise the combo box's [currentIndex()]; the line edits are
    represented by their [text()]. *)
Record Solo : Type := mkSolo {
  cb : option Z;
  secret1 : string;
  secret2 : string
}.

(** What can be connected to a button's [clicked] signal. *)
Inductive Slot : Type :=
| SlotCheckKey
| SlotBack
| SlotExit (code : Z).

(** Calls leaving the layout, in the order they are made. *)
Inductive Event : Type :=
| EvShowError (msg : string)
| EvVerifySoloCheck (secret : string)
| EvIsAddress (addr : string)
| EvReconstruct (shares : list (Z * string)) (size : nat)
| EvComputePrivatekey (s1 s2 : string)
| EvAddressFromPrivateKey (k : string)
| EvLoopExit (code : Z).

(** The layout object together with the part of the wizard it touches
    ([parent.next_button], [parent.back_button], [parent.loop]). *)
Record SoloLayout : Type := mkLayout {
  number_solo : nat;
  is_solo_pro : bool;
  address : string;
  solos : list Solo;
  key : option string;
  next_enabled : bool;
  next_clicked : list Slot;
  back_clicked : list Slot;
  trace : list Event
}.

Definition set_address (a : string) (s : SoloLayout) : SoloLayout :=
  mkLayout (number_solo s) (is_solo_pro s) a (solos s) (key s)
           (next_enabled s) (next_clicked s) (back_clicked s) (trace s).

Definition set_solos (l : list Solo) (s : SoloLayout) : SoloLayout :=
  mkLayout (number_solo s) (is_solo_pro s) (address s) l (key s)
           (next_enabled s) (next_clicked s) (back_clicked s) (trace s).

Definition set_key (k : option string) (s : SoloLayout) : SoloLayout :=
  mkLayout (number_solo s) (is_solo_pro s) (address s) (solos s) k
           (next_enabled s) (next_clicked s) (back_clicked s) (trace s).

Definition set_next_enabled (b : bool) (s : SoloLayout) : SoloLayout :=
  mkLayout (number_solo s) (is_solo_pro s) (address s) (solos s) (key s)
           b (next_clicked s) (back_clicked s) (trace s).

Definition set_next_clicked (l : list Slot) (s : SoloLayout) : SoloLayout :=
  mkLayout (number_solo s) (is_solo_pro s) (address s) (solos s) (key s)
           (next_enabled s) l (back_clicked s) (trace s).

Definition set_back_clicked (l : list Slot) (s : SoloLayout) : SoloLayout :=
  mkLayout (number_solo s) (is_solo_pro s) (address s) (solos s) (key s)
           (next_enabled s) (next_clicked s) l (trace s).

Definition log (evs : list Event) (s : SoloLayout) : SoloLayout :=
  mkLayout (number_solo s) (is_solo_pro s) (address s) (solos s) (key s)
           (next_enabled s) (next_clicked s) (back_clicked s) (trace s ++ evs).

(** ** Statements of a function body

    A statement either falls through to the next one with a value, leaves
    the enclosing function with [return r], or raises. *)
Inductive Exn : Type :=
| NameError (name : string)
| IndexError
| KeyError (k : string)
| AttributeError (attr : string)
| TypeError.

Inductive Outcome (R A : Type) : Type :=
| Next (a : A)
| Returned (r : R)
| Raised (e : Exn).
Arguments Next {R A} a.
Arguments Returned {R A} r.
Arguments Raised {R A} e.

Definition Body (R A : Type) : Type := SoloLayout -> Outcome R A * SoloLayout.

Definition ret {R A} (a : A) : Body R A := fun s => (Next a, s).

Definition bind {R A B} (c : Body R A) (k : A -> Body R B) : Body R B :=
  fun s =>
    match c s with
    | (Next a, s') => k a s'
    | (Returned r, s') => (Returned r, s')
    | (Raised e, s') => (Raised e, s')
    end.

Notation "x <- c ;; k" := (bind c (fun x => k))
  (at level 61, c at next level, right associativity).
Notation "c ;;; k" := (bind c (fun _ => k))
  (at level 61, right associativity).

Definition return_ {R A} (r : R) : Body R A := fun s => (Returned r, s).
Definition raise {R A} (e : Exn) : Body R A := fun s => (Raised e, s).
Definition get {R} : Body R SoloLayout := fun s => (Next s, s).
Definition modify {R} (f : SoloLayout -> SoloLayout) : Body R unit :=
  fun s => (Next tt, f s).
Definition emit {R} (e : Event) : Body R unit := modify (log [e]).

(** Calling a function: its [return r] becomes the value of the call; a
    body that runs off its end yields its last value (the bodies below end
    in a value standing for Python's implicit [None]). *)
Definition call {R R'} (f : Body R R) : Body R' R :=
  fun s =>
    match f s with
    | (Next a, s') => (Next a, s')
    | (Returned r, s') => (Next r, s')
    | (Raised e, s') => (Raised e, s')
    end.

(** [for x in xs: body x] *)
Fixpoint for_each {R A} (xs : list A) (body : A -> Body R unit) : Body R unit :=
  match xs with
  | [] => ret tt
  | x :: xs' => body x ;;; for_each xs' body
  end.

(** A loop that updates local variables [acc]. *)
Fixpoint for_acc {R A L} (xs : list A) (body : A -> L -> Body R L) (acc : L)
  : Body R L :=
  match xs with
  | [] => ret acc
  | x :: xs' => acc' <- body x acc ;; for_acc xs' body acc'
  end.

(** ** Python and Qt primitives *)

(** ["%d" % n] *)
Definition fmt_d (n : Z) : string := NilZero.string_of_int (Z.to_int n).

(** [solo[k].text()] for a line edit of the dict. *)
Definition text {R} (solo : Solo) (k : string) : Body R string :=
  if k =? "secret1" then ret (secret1 solo)
  else if k =? "secret2" then ret (secret2 solo)
  else if k =? "cb" then raise (AttributeError "text")
  else raise (KeyError k).

(** [solo["cb"].currentIndex()] *)
Definition currentIndex {R} (solo : Solo) : Body R Z :=
  match cb solo with
  | Some i => ret i
  | None => raise (AttributeError "currentIndex")
  end.

(** [self.solos[i]] *)
Definition solos_item {R} (i : nat) : Body R Solo :=
  s <- get ;;
  match nth_error (solos s) i with
  | Some solo => ret solo
  | None => raise IndexError
  end.

(** A global name that the module neither defines nor imports. *)
Definition undefined_global {R A} (name : string) : Body R A :=
  raise (NameError name).

(** [s[:n]] *)
Definition slice_to (n : nat) (s : string) : string := substring 0 n s.

Section Layout.
Context {X : Externals}.

(** Logged calls of the imported functions and of the wizard. *)
Definition call_verify_solo_check {R} (t : string) : Body R bool :=
  emit (EvVerifySoloCheck t) ;;; ret (verify_solo_check t).
Definition call_is_address {R} (a : string) : Body R bool :=
  emit (EvIsAddress a) ;;; ret (is_address a).
Definition call_reconstruct {R} (sh : list (Z * string)) (n : nat) : Body R string :=
  emit (EvReconstruct sh n) ;;; ret (reconstruct sh n).
Definition call_compute_privatekey_bitcoin {R} (a b : string) : Body R string :=
  emit (EvComputePrivatekey a b) ;;; ret (compute_privatekey_bitcoin a b).
Definition call_address_from_private_key {R} (k : string) : Body R string :=
  emit (EvAddressFromPrivateKey k) ;;; ret (address_from_private_key k).
Definition show_error {R} (msg : string) : Body R unit := emit (EvShowError msg).
Definition loop_exit {R} (code : Z) : Body R unit := emit (EvLoopExit code).

(** ** [SoloLayout.reset_buttons] *)
Definition reset_buttons : Body unit unit :=
  modify (set_back_clicked []) ;;;
  modify (set_next_clicked []) ;;;
  modify (fun s => set_next_clicked (next_clicked s ++ [SlotExit 2]) s) ;;;
  modify (fun s => set_back_clicked (back_clicked s ++ [SlotExit 1]) s).

(** ** [SoloLayout.back] *)
Definition back : Body unit unit :=
  call reset_buttons ;;;
  loop_exit 1.

(** ** [SoloLayout.get_key] *)

(** The treatment of one secret in the single-Solo branch:
    [if len(secret) == 30: if verify_solo_check(secret) is False:
       wrong_secret(n, False); return None
     secret = secret[:29]]. *)
Definition get_key_strip (secret : string) : Body (option string) string :=
  if (String.length secret =? 30)%nat then
    ok <- call_verify_solo_check secret ;;
    (if negb ok then
       (@undefined_global (option string) unit "wrong_secret") ;;;
       return_ None
     else ret tt) ;;;
    ret (slice_to 29 secret)
  else ret secret.

(** The loop filling [secret1_shares] and [secret2_shares]. *)
Definition get_key_shares (l : list Solo)
  : Body (option string) (list (Z * string) * list (Z * string)) :=
  for_acc l
    (fun solo '(secret1_shares, secret2_shares) =>
       i1 <- currentIndex solo ;;
       t1 <- text solo "secret1" ;;
       i2 <- currentIndex solo ;;
       t2 <- text solo "secret2" ;;
       ret ((secret1_shares ++ [((i1 + 1)%Z, t1)])%list,
            (secret2_shares ++ [((i2 + 1)%Z, t2)])%list))
    ([], []).

(** [self.key] is assigned and then read back, both for the comparison
    and for the value returned; [None] is not a key that
    [address_from_private_key] takes. *)
Definition get_key : Body (option string) (option string) :=
  s <- get ;;
  secrets <-
    (if (number_solo s =? 1)%nat then
       solo <- solos_item 0 ;;
       secret1 <- text solo "secret1" ;;
       solo' <- solos_item 0 ;;
       secret2 <- text solo' "secret2" ;;
       secret1 <- get_key_strip secret1 ;;
       secret2 <- get_key_strip secret2 ;;
       ret (secret1, secret2)
     else
       shares <- get_key_shares (solos s) ;;
       secret1 <- call_reconstruct (fst shares) 28 ;;
       secret2 <- call_reconstruct (snd shares) 14 ;;
       ret (secret1, secret2)) ;;
  k <- call_compute_privatekey_bitcoin (fst secrets) (snd secrets) ;;
  modify (set_key (Some k)) ;;;
  s1 <- get ;;
  a <- (match key s1 with
        | Some k1 => call_address_from_private_key k1
        | None => raise TypeError
        end) ;;
  s2 <- get ;;
  if a =? address s2 then return_ (key s2) else return_ None.

(** ** [SoloLayout.check_key] *)

(** [solonum]: empty, or [" of the solo %d" % (solo["cb"].currentIndex()+1)]
    when [self.number_solo > 1]. *)
Definition check_key_solonum (solo : Solo) : Body unit string :=
  s <- get ;;
  if (1 <? number_solo s)%nat then
    i <- currentIndex solo ;;
    ret (" of the solo " ++ fmt_d (i + 1))
  else ret EmptyString.

Definition wrong_size_msg (numsec solonum : string) (sizesec : nat) : string :=
  "secret " ++ numsec ++ solonum ++
  (" should be of size " ++ fmt_d (Z.of_nat sizesec) ++ " or 30").

Definition bad_checksum_msg (numsec solonum : string) : string :=
  "secret " ++ numsec ++ solonum ++
  " do not have a valid checksum, verify that you entered the secret correctly".

(** The first [if] of the loop body: the size of the secret. *)
Definition check_key_size (solo : Solo) (numsec solonum : string) (sizesec : nat)
  : Body unit unit :=
  t <- text solo ("secret" ++ numsec) ;;
  if negb (String.length t =? sizesec)%nat then
    t' <- text solo ("secret" ++ numsec) ;;
    if negb (String.length t' =? 30)%nat then
      show_error (wrong_size_msg numsec solonum sizesec) ;;;
      return_ tt
    else ret tt
  else ret tt.

(** The second [if] of the loop body: the checksum of a 30 character secret. *)
Definition check_key_checksum (solo : Solo) (numsec solonum : string)
  : Body unit unit :=
  t <- text solo ("secret" ++ numsec) ;;
  if (String.length t =? 30)%nat then
    t' <- text solo ("secret" ++ numsec) ;;
    ok <- call_verify_solo_check t' ;;
    if negb ok then
      show_error (bad_checksum_msg numsec solonum) ;;;
      return_ tt
    else ret tt
  else ret tt.

(** The body of the inner loop, for one [(numsec, sizesec)]. *)
Definition check_key_secret (solo : Solo) (p : string * nat) : Body unit unit :=
  solonum <- check_key_solonum solo ;;
  check_key_size solo (fst p) solonum (snd p) ;;;
  check_key_checksum solo (fst p) solonum.

Definition secret_sizes : list (string * nat) := [("1", 28); ("2", 14)].

(** The two nested loops over [self.solos] and the two secrets. *)
Definition check_key_secrets (l : list Solo) : Body unit unit :=
  for_each l (fun solo => for_each secret_sizes (check_key_secret solo)).

Definition invalid_address_msg : string := "The address is not valid".

Definition mismatch_msg : string :=
  "The recomputed private key do not correspond to the address you entered, please verify that secret codes are correct".

Definition check_key : Body unit unit :=
  s <- get ;;
  check_key_secrets (solos s) ;;;
  s1 <- get ;;
  ok <- call_is_address (address s1) ;;
  (if negb ok then
     show_error invalid_address_msg ;;;
     return_ tt
   else ret tt) ;;;
  k <- call get_key ;;
  match k with
  | None => show_error mismatch_msg
  | Some _ =>
      call reset_buttons ;;;
      loop_exit 2
  end.

(** ** [SoloLayout.on_edit] *)
Definition on_edit : Body unit unit :=
  s <- get ;;
  r <- for_acc (solos s)
         (fun solo '(b, indexes) =>
            t1 <- text solo "secret1" ;;
            let b := b && is_base58 t1 in
            t2 <- text solo "secret2" ;;
            let b := b && is_base58 t2 in
            s' <- get ;;
            if (1 <? number_solo s')%nat then
              ind <- currentIndex solo ;;
              let b := b && negb (existsb (Z.eqb ind) indexes) in
              ret (b, (indexes ++ [ind])%list)
            else ret (b, indexes))
         (true, []) ;;
  modify (set_next_enabled (fst r)).

(** ** [SoloLayout.display_secrets] and [SoloLayout.__init__] *)

(** The entries appended by [for i in range(self.number_solo)], from [i] on. *)
Fixpoint display_secrets_from (n : nat) (count i : nat) : list Solo :=
  match count with
  | O => []
  | S count' =>
      mkSolo (if (1 <? n)%nat then Some (Z.of_nat i) else None) EmptyString EmptyString
        :: display_secrets_from n count' (S i)
  end.

Definition display_secrets (n : nat) : list Solo := display_secrets_from n n 0.

(** The layout as [__init__] leaves it. *)
Definition init (pro : bool) : SoloLayout :=
  let n := if pro then 2 else 1 in
  mkLayout n pro EmptyString (display_secrets n) None false [SlotCheckKey] [SlotBack] [].

(** ** The wizard's event loop around the layout

    What the user can do while the layout is shown.  [textChanged] and
    [currentIndexChanged] are connected to [on_edit] and are emitted only
    when the value really changes; the line edits of the secrets have
    [setMaxLength(30)]; a click on a disabled button emits nothing. *)
Inductive GuiEvent : Type :=
| TypeAddress (t : string)
| TypeSecret1 (i : nat) (t : string)
| TypeSecret2 (i : nat) (t : string)
| SelectSolo (i : nat) (ind : Z)
| ClickNext
| ClickBack.

Fixpoint replace_nth {A} (i : nat) (x : A) (l : list A) : list A :=
  match l, i with
  | [], _ => []
  | _ :: l', O => x :: l'
  | y :: l', S i' => y :: replace_nth i' x l'
  end.

Definition run_slot (sl : Slot) : Body unit unit :=
  match sl with
  | SlotCheckKey => call check_key
  | SlotBack => call back
  | SlotExit code => loop_exit code
  end.

Definition emit_clicked (slots : list Slot) : Body unit unit :=
  for_each slots run_slot.

Definition gui_step (e : GuiEvent) : Body unit unit :=
  s <- get ;;
  match e with
  | TypeAddress t =>
      if t =? address s then ret tt
      else modify (set_address t) ;;; call on_edit
  | TypeSecret1 i t =>
      match nth_error (solos s) i with
      | Some solo =>
          if slice_to 30 t =? secret1 solo then ret tt
          else
            modify (set_solos
                      (replace_nth i (mkSolo (cb solo) (slice_to 30 t) (secret2 solo))
                                   (solos s))) ;;;
            call on_edit
      | None => ret tt
      end
  | TypeSecret2 i t =>
      match nth_error (solos s) i with
      | Some solo =>
          if slice_to 30 t =? secret2 solo then ret tt
          else
            modify (set_solos
                      (replace_nth i (mkSolo (cb solo) (secret1 solo) (slice_to 30 t))
                                   (solos s))) ;;;
            call on_edit
      | None => ret tt
      end
  | SelectSolo i ind =>
      match nth_error (solos s) i with
      | Some solo =>
          match cb solo with
          | Some old =>
              if ((0 <=? ind)%Z && (ind <? 3)%Z && negb (ind =? old)%Z)%bool then
                modify (set_solos
                          (replace_nth i (mkSolo (Some ind) (secret1 solo) (secret2 solo))
                                       (solos s))) ;;;
                call on_edit
              else ret tt
          | None => ret tt
          end
      | None => ret tt
      end
  | ClickNext =>
      if next_enabled s then emit_clicked (next_clicked s) else ret tt
  | ClickBack => emit_clicked (back_clicked s)
  end.

(** A session: the events are handled one after the other; an exception
    that leaves a slot ends the session. *)
Definition gui_run (evs : list GuiEvent) : Body unit unit :=
  for_each evs gui_step.

(** ** Vocabulary of the statements *)

(** The layouts [__init__] can build and the events keep: one entry per
    Solo, and a combo box on each entry exactly when there are several. *)
Definition wf_solo (n : nat) (solo : Solo) : bool :=
  if (1 <? n)%nat then
    match cb solo with Some _ => true | None => false end
  else true.

Definition wf (s : SoloLayout) : bool :=
  ((List.length (solos s) =? number_solo s)%nat
   && (1 <=? number_solo s)%nat
   && forallb (wf_solo (number_solo s)) (solos s))%bool.

(** The value of [solonum] for an entry. *)
Definition solonum (n : nat) (solo : Solo) : string :=
  if (1 <? n)%nat then
    match cb solo with
    | Some i => " of the solo " ++ fmt_d (i + 1)
    | None => EmptyString
    end
  else EmptyString.

(** A secret that passes both tests of [check_key]. *)
Definition size_ok (sizesec : nat) (t : string) : bool :=
  ((String.length t =? sizesec)%nat || (String.length t =? 30)%nat)%bool.

Definition checksum_ok (t : string) : bool :=
  if (String.length t =? 30)%nat then verify_solo_check t else true.

Definition secret_ok (sizesec : nat) (t : string) : bool :=
  (size_ok sizesec t && checksum_ok t)%bool.

Definition solo_ok (solo : Solo) : bool :=
  (secret_ok 28 (secret1 solo) && secret_ok 14 (secret2 solo))%bool.

(** The calls of [verify_solo_check] made while an accepted secret, and
    an accepted entry, is checked. *)
Definition verify_events (t : string) : list Event :=
  if (String.length t =? 30)%nat then [EvVerifySoloCheck t] else [].

Definition solo_events (solo : Solo) : list Event :=
  (verify_events (secret1 solo) ++ verify_events (secret2 solo))%list.

(** The pairs [(currentIndex()+1, text())] built by [get_key]. *)
Definition shares_of (field : Solo -> string) (l : list Solo) : list (Z * string) :=
  map (fun solo => ((match cb solo with Some i => i | None => 0 end + 1)%Z, field solo)) l.

(** A share is the pair [(currentIndex()+1, text())] of an entry. *)
Definition numbered (field : Solo -> string) (p : Z * string) (solo : Solo) : Prop :=
  exists i : Z, cb solo = Some i /\ p = ((i + 1)%Z, field solo).

(** The combo box indexes of the entries. *)
Definition indexes_of (l : list Solo) : list Z :=
  flat_map (fun solo => match cb solo with Some i => [i] | None => [] end) l.

(** What is logged when the first secret of an entry is refused. *)
Definition refusal_1 (n : nat) (solo : Solo) : list Event :=
  if size_ok 28 (secret1 solo)
  then [EvVerifySoloCheck (secret1 solo);
        EvShowError (bad_checksum_msg "1" (solonum n solo))]
  else [EvShowError (wrong_size_msg "1" (solonum n solo) 28)].

(** What is logged when the second secret of an entry is refused. *)
Definition refusal_2 (n : nat) (solo : Solo) : list Event :=
  if size_ok 14 (secret2 solo)
  then [EvVerifySoloCheck (secret2 solo);
        EvShowError (bad_checksum_msg "2" (solonum n solo))]
  else [EvShowError (wrong_size_msg "2" (solonum n solo) 14)].

(** What is logged for an entry that is refused. *)
Definition refusal (n : nat) (solo : Solo) : list Event :=
  if secret_ok 28 (secret1 solo)
  then verify_events (secret1 solo) ++ refusal_2 n solo
  else refusal_1 n solo.

(** The secret [get_key] keeps of an entered one when there is one Solo. *)
Definition strip (t : string) : string :=
  if (String.length t =? 30)%nat then slice_to 29 t else t.

(** [get_key] reaches the computation of the key: with one Solo, no
    30 character secret fails its checksum. *)
Definition get_key_ready (s : SoloLayout) : bool :=
  if (number_solo s =? 1)%nat then
    forallb (fun solo => checksum_ok (secret1 solo) && checksum_ok (secret2 solo))%bool
            (solos s)
  else true.

(** The two secrets [get_key] hands to [compute_privatekey_bitcoin]. *)
Definition derived_secrets (s : SoloLayout) : string * string :=
  if (number_solo s =? 1)%nat then
    match solos s with
    | solo :: _ => (strip (secret1 solo), strip (secret2 solo))
    | [] => (EmptyString, EmptyString)
    end
  else (reconstruct (shares_of secret1 (solos s)) 28,
        reconstruct (shares_of secret2 (solos s)) 14).

Definition derived_key (s : SoloLayout) : string :=
  compute_privatekey_bitcoin (fst (derived_secrets s)) (snd (derived_secrets s)).

(** The calls made by a run of [get_key] that reaches its end. *)
Definition get_key_events (s : SoloLayout) : list Event :=
  ((if (number_solo s =? 1)%nat then
      match solos s with
      | solo :: _ => verify_events (secret1 solo) ++ verify_events (secret2 solo)
      | [] => []
      end
    else [EvReconstruct (shares_of secret1 (solos s)) 28;
          EvReconstruct (shares_of secret2 (solos s)) 14])
   ++ [EvComputePrivatekey (fst (derived_secrets s)) (snd (derived_secrets s));
       EvAddressFromPrivateKey (derived_key s)])%list.

(** The value [get_key] returns when it reaches its end. *)
Definition get_key_result (s : SoloLayout) : option string :=
  if address_from_private_key (derived_key s) =? address s
  then Some (derived_key s) else None.

(** The calls [check_key] makes before [get_key] when every secret passes. *)
Definition checked_events (s : SoloLayout) : list Event :=
  (flat_map solo_events (solos s) ++ [EvIsAddress (address s)])%list.

(** The buttons as [reset_buttons] leaves them. *)
Definition rewired (s : SoloLayout) : SoloLayout :=
  set_back_clicked [SlotExit 1] (set_next_clicked [SlotExit 2] s).

(** [ind not in indexes], entry after entry, starting from [seen]. *)
Fixpoint distinct_from (seen l : list Z) : bool :=
  match l with
  | [] => true
  | i :: l' => (negb (existsb (Z.eqb i) seen) && distinct_from (seen ++ [i]) l')%bool
  end.

(** The value [on_edit] gives to [setEnabled]. *)
Definition edit_ok (s : SoloLayout) : bool :=
  (forallb (fun solo => is_base58 (secret1 solo) && is_base58 (secret2 solo))%bool
           (solos s)
   && (if (1 <? number_solo s)%nat
       then distinct_from [] (indexes_of (solos s)) else true))%bool.

(** A call of [reconstruct] whose shares carry pairwise different numbers. *)
Definition reconstruct_distinct (e : Event) : Prop :=
  match e with
  | EvReconstruct shares _ => NoDup (map fst shares)
  | _ => True
  end.

(** What holds of the layout all along a session. *)
Definition session_inv (s : SoloLayout) : Prop :=
  wf s = true
  /\ (next_enabled s = true -> edit_ok s = true)
  /\ (next_clicked s = [SlotCheckKey] \/ next_clicked s = [SlotExit 2])
  /\ (back_clicked s = [SlotBack] \/ back_clicked s = [SlotExit 1])
  /\ Forall reconstruct_distinct (trace s).

(** An event that is not a call of [reconstruct]. *)
Definition not_reconstruct (e : Event) : Prop :=
  match e with
  | EvReconstruct _ _ => False
  | _ => True
  end.

(** The buttons run [check_key] and [back] as long as the loop was not
    left, and the handlers of the wizard afterwards. *)
Definition wiring (s : SoloLayout) : Prop :=
  (next_clicked s = [SlotCheckKey] /\ back_clicked s = [SlotBack]
   /\ forall c, ~ In (EvLoopExit c) (trace s))
  \/ (next_clicked s = [SlotExit 2] /\ back_clicked s = [SlotExit 1]
      /\ exists c, In (EvLoopExit c) (trace s)).

(** A combo box shows one of its three items. *)
Definition cb_in_range (solo : Solo) : Prop :=
  match cb solo with
  | Some i => (0 <= i < 3)%Z
  | None => True
  end.

(** A call of [reconstruct] with [n] shares numbered from 1 to 3, for a
    secret of 28 or of 14 characters. *)
Definition reconstruct_shape (n : nat) (e : Event) : Prop :=
  match e with
  | EvReconstruct shares size =>
      List.length shares = n
      /\ Forall (fun p => (1 <= fst p <= 3)%Z) shares
      /\ (size = 28%nat \/ size = 14%nat)
  | _ => True
  end.

Definition session_inv2 (n : nat) (s : SoloLayout) : Prop :=
  session_inv s
  /\ wiring s
  /\ number_solo s = n
  /\ Forall cb_in_range (solos s)
  /\ Forall (reconstruct_shape n) (trace s).

End Layout.

(** ** The base-58 alphabet *)

Definition b58chars : string :=
  "123456789ABCDEFGHJKLMNPQRSTUVWXYZabcdefghijkmnopqrstuvwxyz".

Definition in_b58chars (c : ascii) : bool :=
  existsb (Ascii.eqb c) (list_ascii_of_string b58chars).

(** Modelled from the spec: [is_base58] of [electrum.bitcoin], which the
    layout imports and which is not among the sources.  The spec asks for
    "alphabet membership" and nothing more. *)
Definition is_base58_alphabet (t : string) : bool :=
  forallb in_b58chars (list_ascii_of_string t).

(** ** Sample collaborators and layouts, used to run the model *)

(** A checksum carried by the 30th character, an address that names its
    key, a key that is the concatenation of the secrets. *)
Definition sample : Externals := {|
  verify_solo_check := fun t => substring 29 1 t =? "z";
  is_base58 := is_base58_alphabet;
  is_address := fun a => prefix "1" a;
  reconstruct := fun sh n =>
    slice_to n (match sh with (_, t) :: _ => t | [] => EmptyString end);
  compute_privatekey_bitcoin := fun a b => a ++ b;
  address_from_private_key := fun k => "1" ++ k
|}.

Definition bare28 : string := "ABCDEFGHJKLMNPQRSTUVWXYZabcd".
Definition bare14 : string := "abcdefghijkmno".
Definition good30 : string := "ABCDEFGHJKLMNPQRSTUVWXYZabcdez".
Definition bad30 : string := "ABCDEFGHJKLMNPQRSTUVWXYZabcdey".

(** One Solo, bare secrets, the matching address. *)
Definition single_bare : SoloLayout :=
  mkLayout 1 false ("1" ++ bare28 ++ bare14) [mkSolo None bare28 bare14]
           None true [SlotCheckKey] [SlotBack] [].

(** One Solo, bare secrets, the address of another key. *)
Definition single_other_address : SoloLayout :=
  mkLayout 1 false ("1" ++ bare14 ++ bare28) [mkSolo None bare28 bare14]
           None true [SlotCheckKey] [SlotBack] [].

(** One Solo whose first secret has 30 characters and a wrong checksum. *)
Definition single_bad30 : SoloLayout :=
  mkLayout 1 false ("1" ++ bare28 ++ bare14) [mkSolo None bad30 bare14]
           None true [SlotCheckKey] [SlotBack] [].

(** One Solo whose first secret has 30 characters and a right checksum. *)
Definition single_good30 : SoloLayout :=
  mkLayout 1 false ("1" ++ slice_to 29 good30 ++ bare14) [mkSolo None good30 bare14]
           None true [SlotCheckKey] [SlotBack] [].

(** Two Solos with bare secrets. *)
Definition pro_bare : SoloLayout :=
  mkLayout 2 true ("1" ++ bare28 ++ bare14)
           [mkSolo (Some 0%Z) bare28 bare14; mkSolo (Some 1%Z) bare28 bare14]
           None true [SlotCheckKey] [SlotBack] [].

(** Two Solos, the second with a first secret of 5 characters. *)
Definition pro_short : SoloLayout :=
  mkLayout 2 true ("1" ++ bare28 ++ bare14)
           [mkSolo (Some 0%Z) good30 bare14; mkSolo (Some 1%Z) "ABCDE" bare14]
           None true [SlotCheckKey] [SlotBack] [].

(** Two Solos with 30 character secrets. *)
Definition pro_good30 : SoloLayout :=
  mkLayout 2 true ("1" ++ bare28 ++ bare14)
           [mkSolo (Some 0%Z) good30 good30; mkSolo (Some 2%Z) good30 good30]
           None true [SlotCheckKey] [SlotBack] [].

(** * The other layouts of [seed_dialog.py] *)

(** ** [SeedLayout]: the entry of a seed *)
Module Seed.

(** A character on which [str.split()] cuts: those [str.isspace] holds of,
    among the first 256. *)
Definition is_space (c : ascii) : bool :=
  let n := nat_of_ascii c in
  (((9 <=? n) && (n <=? 13)) || ((28 <=? n) && (n <=? 32))
   || (n =? 133) || (n =? 160))%nat%bool.

(** [s.split()], [cur] being the word that is being read. *)
Fixpoint split_from (cur s : string) : list string :=
  match s with
  | EmptyString =>
      match cur with
      | EmptyString => []
      | _ => [cur]
      end
  | String c s' =>
      if is_space c then
        match cur with
        | EmptyString => split_from EmptyString s'
        | _ => cur :: split_from EmptyString s'
        end
      else split_from (cur ++ String c EmptyString) s'
  end.

Definition split (s : string) : list string := split_from EmptyString s.

(** [s.split(sep)] for a separator of one character, [cur] being the
    piece that is being read. *)
Fixpoint split_on_from (sep : ascii) (cur s : string) : list string :=
  match s with
  | EmptyString => [cur]
  | String c s' =>
      if Ascii.eqb c sep then cur :: split_on_from sep EmptyString s'
      else split_on_from sep (cur ++ String c EmptyString) s'
  end.

Definition split_on (sep : ascii) (s : string) : list string :=
  split_on_from sep EmptyString s.

(** [' '.join(l)] *)
Definition join (l : list string) : string := String.concat " " l.

(** [w in l] for a list of strings. *)
Definition mem (w : string) (l : list string) : bool := existsb (String.eqb w) l.

(** [bool(x)] for a string. *)
Definition truthy (x : string) : bool :=
  match x with
  | EmptyString => false
  | _ => true
  end.

(** The fields of the layout that [on_edit] and the options dialog read
    and write, with the state of the widgets they drive: the text of
    [seed_e] and whether its suggestions are enabled, the texts of
    [seed_type_label] and [seed_warning], the Next button of the parent. *)
Record SeedLayout : Type := mkSeed {
  seed_e_text : string;
  suggestions : bool;
  is_seed : string -> bool;
  saved_is_seed : string -> bool;
  is_bip39 : bool;
  is_ext : bool;
  options : list string;
  wordlist : list string;
  seed_type_label : string;
  seed_warning : string;
  next_enabled : bool
}.

Definition set_suggestions (b : bool) (l : SeedLayout) : SeedLayout :=
  mkSeed (seed_e_text l) b (is_seed l) (saved_is_seed l) (is_bip39 l) (is_ext l)
         (options l) (wordlist l) (seed_type_label l) (seed_warning l) (next_enabled l).

Definition set_is_seed (f : string -> bool) (l : SeedLayout) : SeedLayout :=
  mkSeed (seed_e_text l) (suggestions l) f (saved_is_seed l) (is_bip39 l) (is_ext l)
         (options l) (wordlist l) (seed_type_label l) (seed_warning l) (next_enabled l).

Definition set_is_bip39 (b : bool) (l : SeedLayout) : SeedLayout :=
  mkSeed (seed_e_text l) (suggestions l) (is_seed l) (saved_is_seed l) b (is_ext l)
         (options l) (wordlist l) (seed_type_label l) (seed_warning l) (next_enabled l).

Definition set_is_ext (b : bool) (l : SeedLayout) : SeedLayout :=
  mkSeed (seed_e_text l) (suggestions l) (is_seed l) (saved_is_seed l) (is_bip39 l) b
         (options l) (wordlist l) (seed_type_label l) (seed_warning l) (next_enabled l).

Definition set_seed_type_label (t : string) (l : SeedLayout) : SeedLayout :=
  mkSeed (seed_e_text l) (suggestions l) (is_seed l) (saved_is_seed l) (is_bip39 l)
         (is_ext l) (options l) (wordlist l) t (seed_warning l) (next_enabled l).

Definition set_seed_warning (t : string) (l : SeedLayout) : SeedLayout :=
  mkSeed (seed_e_text l) (suggestions l) (is_seed l) (saved_is_seed l) (is_bip39 l)
         (is_ext l) (options l) (wordlist l) (seed_type_label l) t (next_enabled l).

Definition set_next_enabled (b : bool) (l : SeedLayout) : SeedLayout :=
  mkSeed (seed_e_text l) (suggestions l) (is_seed l) (saved_is_seed l) (is_bip39 l)
         (is_ext l) (options l) (wordlist l) (seed_type_label l) (seed_warning l) b.

Definition set_seed_e_text (t : string) (l : SeedLayout) : SeedLayout :=
  mkSeed t (suggestions l) (is_seed l) (saved_is_seed l) (is_bip39 l)
         (is_ext l) (options l) (wordlist l) (seed_type_label l) (seed_warning l)
         (next_enabled l).

(** ** [SeedLayout.get_seed] *)
Definition get_seed (l : SeedLayout) : string := join (split (seed_e_text l)).

Section Collaborators.

(** [electrum.i18n._], [electrum.mnemonic.seed_type] and
    [electrum.keystore.bip39_is_checksum_valid], which the layout imports. *)
Variable tr : string -> string.
Variable seed_type : string -> string.
Variable bip39_is_checksum_valid : string -> bool * bool.

(** The loop at the end of [on_edit]. *)
Fixpoint on_edit_words (words : list string) (l : SeedLayout) : SeedLayout :=
  match words with
  | [] => set_suggestions true l
  | word :: words' =>
      if negb (mem word (wordlist l)) then set_suggestions false l
      else on_edit_words words' l
  end.

(** The [label] that [on_edit] computes for the seed [s]. *)
Definition on_edit_label (l : SeedLayout) (s : string) : string :=
  if negb (is_bip39 l) then
    let t := seed_type s in
    if truthy t then tr "Seed Type" ++ ": " ++ t else EmptyString
  else
    let '(is_checksum, is_wordlist) := bip39_is_checksum_valid s in
    let status :=
      if is_wordlist
      then "checksum: " ++ (if is_checksum then "ok" else "failed")
      else "unknown wordlist" in
    "BIP39" ++ (" (" ++ status ++ ")").

(** ** [SeedLayout.on_edit] *)
Definition on_edit (l : SeedLayout) : SeedLayout :=
  let s := get_seed l in
  let b := is_seed l s in
  let label := on_edit_label l s in
  let l := set_seed_type_label label l in
  let l := set_next_enabled b l in
  on_edit_words (removelast (split_on " " (get_seed l))) l.

(** A change of the text of [seed_e], whose [textChanged] is connected
    to [on_edit]. *)
Definition text_changed (t : string) (l : SeedLayout) : SeedLayout :=
  on_edit (set_seed_e_text t l).

(** ** The slot [f] that [seed_options] connects to the BIP39 check box *)
Definition bip39_warning : string :=
  join ["<b>" ++ tr "Warning" ++ ":</b>  ";
        tr "BIP39 seeds can be imported in Electrum, so that users can access funds locked in other wallets.";
        tr "However, we do not generate BIP39 seeds, because they do not meet our safety standard.";
        tr "BIP39 seeds do not include a version number, which compromises compatibility with future software.";
        tr "We do not guarantee that BIP39 imports will always be supported in Electrum."].

Definition f (b : bool) (l : SeedLayout) : SeedLayout :=
  let l := set_is_seed (if b then truthy else saved_is_seed l) l in
  let l := set_is_bip39 b l in
  let l := on_edit l in
  let msg := if b then bip39_warning else EmptyString in
  set_seed_warning msg l.

(** ** [SeedLayout.seed_options]

    What the user does in the dialog: clicks on the two check boxes, then
    Ok ([exec_] returns 1) or a closed window ([exec_] returns 0).  A check
    box exists only if its option is among [self.options]; [toggled] is
    emitted when the state of a box changes, also by [setChecked]. *)
Inductive Click : Type := ClickExt | ClickBip39.

(** The check boxes of the dialog: [None] for a box that was not made. *)
Record Dialog : Type := mkDialog {
  cb_ext : option bool;
  cb_bip39 : option bool
}.

Definition set_checked_bip39 (b : bool) (d : Dialog) (l : SeedLayout)
  : Dialog * SeedLayout :=
  match cb_bip39 d with
  | Some old =>
      if Bool.eqb old b then (d, l)
      else (mkDialog (cb_ext d) (Some b), f b l)
  | None => (d, l)
  end.

Definition click (c : Click) (d : Dialog) (l : SeedLayout) : Dialog * SeedLayout :=
  match c with
  | ClickExt =>
      match cb_ext d with
      | Some old => (mkDialog (Some (negb old)) (cb_bip39 d), l)
      | None => (d, l)
      end
  | ClickBip39 =>
      match cb_bip39 d with
      | Some old => set_checked_bip39 (negb old) d l
      | None => (d, l)
      end
  end.

Fixpoint clicks (cs : list Click) (d : Dialog) (l : SeedLayout) : Dialog * SeedLayout :=
  match cs with
  | [] => (d, l)
  | c :: cs' => let '(d', l') := click c d l in clicks cs' d' l'
  end.

Definition seed_options (cs : list Click) (accepted : bool) (l : SeedLayout)
  : SeedLayout :=
  let has_ext := mem "ext" (options l) in
  let has_bip39 := mem "bip39" (options l) in
  let d := mkDialog (if has_ext then Some (is_ext l) else None)
                    (if has_bip39 then Some false else None) in
  let '(d, l) := if has_bip39 then set_checked_bip39 (is_bip39 l) d l else (d, l) in
  let '(d, l) := clicks cs d l in
  if negb accepted then l
  else
    let l := set_is_ext (match cb_ext d with Some b => b | None => false end) l in
    set_is_bip39 (match cb_bip39 d with Some b => b | None => false end) l.

End Collaborators.

(** ** [SeedLayout.initialize_completer] *)

(** The order of Python on strings. *)
Module StringOrder.
Definition t : Type := string.
Definition leb (x y : t) : bool := String.leb x y.
Lemma leb_total (x y : t) : leb x y = true \/ leb y x = true.
Proof. apply String.leb_total. Qed.
End StringOrder.

Module StringSort := Sort StringOrder.

(** [set(old_list) - set(bip39_english_list)], listed in the order of the
    first occurrences in [old_list]; Python lists a set in an order of its
    own. *)
Definition only_old_list (bip39_english_list old_list : list string) : list string :=
  nodup string_dec (filter (fun w => negb (mem w bip39_english_list)) old_list).

(** [self.wordlist] built from an enumeration [only_old] of that set. *)
Definition wordlist_of (bip39_english_list only_old : list string) : list string :=
  StringSort.sort (bip39_english_list ++ only_old).

Definition initialize_completer (bip39_english_list old_list : list string)
           (l : SeedLayout) : SeedLayout :=
  mkSeed (seed_e_text l) (suggestions l) (is_seed l) (saved_is_seed l) (is_bip39 l)
         (is_ext l) (options l)
         (wordlist_of bip39_english_list (only_old_list bip39_english_list old_list))
         (seed_type_label l) (seed_warning l) (next_enabled l).

(** The words the completer paints: [option.text in only_old_list]. *)
Definition highlighted (bip39_english_list old_list : list string) (w : string) : bool :=
  mem w (only_old_list bip39_english_list old_list).

End Seed.

(** ** Vocabulary of the statements on [SeedLayout] *)
Module SeedTerms.
Import Seed.

(** A word: not empty, and without a character [split] cuts on. *)
Definition space_free (w : string) : Prop :=
  forall c, In c (list_ascii_of_string w) -> is_space c = false.

Definition word (w : string) : Prop := w <> EmptyString /\ space_free w.

(** A text of spaces only. *)
Definition blank (w : string) : Prop :=
  forall c, In c (list_ascii_of_string w) -> is_space c = true.

(** The number of clicks on a box is odd. *)
Fixpoint odd_clicks (c : Click) (cs : list Click) : bool :=
  match cs with
  | [] => false
  | c' :: cs' =>
      xorb (match c, c' with
            | ClickExt, ClickExt | ClickBip39, ClickBip39 => true
            | _, _ => false
            end)
           (odd_clicks c cs')
  end.

(** The validator in use is the one its BIP39 flag announces, and the
    flag is only set on a layout that has the BIP39 option. *)
Definition coherent (l : SeedLayout) : Prop :=
  (forall x, is_seed l x =
             if is_bip39 l then truthy x else saved_is_seed l x)
  /\ (is_bip39 l = true -> mem "bip39" (options l) = true).

(** The order of Python on strings, as a relation. *)
Definition string_le (x y : string) : Prop := String.leb x y = true.

End SeedTerms.

(** ** [KeysLayout]: the entry of keys *)
Module Keys.

(** The text of [text_e], and the tool tip and the state of the Next
    button of the parent. *)
Record KeysLayout : Type := mkKeys {
  text_e : string;
  tool_tip : string;
  next_enabled : bool
}.

(** What a call can raise: an instance [e] of [Exception], given by
    [str(e)], or an exception outside [Exception] ([KeyboardInterrupt],
    [SystemExit], [GeneratorExit]), given by its name. *)
Inductive Raise : Type :=
| AnException (str_e : string)
| NotAnException (name : string).

(** How a call of [on_edit] ends. *)
Inductive Ending : Type :=
| Returns
| Propagates (e : Raise).

Section Validator.

(** [electrum.i18n._], and [self.is_valid]: a function that returns a
    truth value or raises. *)
Variable tr : string -> string.
Variable is_valid : string -> Raise + bool.

(** ** [KeysLayout.get_text] *)
Definition get_text (l : KeysLayout) : string := text_e l.

(** ** [KeysLayout.on_edit]

    [except Exception] catches the instances of [Exception] only: any
    other exception leaves [on_edit] before a tool tip or the state of the
    button is written. *)
Definition on_edit (l : KeysLayout) : Ending * KeysLayout :=
  let valid := false in
  match is_valid (get_text l) with
  | inl (AnException str_e) =>
      (Returns, mkKeys (text_e l) (tr "Error" ++ ": " ++ str_e) valid)
  | inl (NotAnException name) =>
      (Propagates (NotAnException name), l)
  | inr v =>
      (Returns, mkKeys (text_e l) EmptyString v)
  end.

End Validator.

End Keys.

(** * The command line handler of [plugins/trezor/cmdline.py] *)
Module Trezor.

(** The dict [t] of [get_pin], in the order it is written. *)
Definition t : list (ascii * ascii) :=
  [("a", "7"); ("b", "8"); ("c", "9"); ("d", "4"); ("e", "5"); ("f", "6");
   ("g", "1"); ("h", "2"); ("i", "3")]%char.

(** [d[k]] *)
Fixpoint getitem (d : list (ascii * ascii)) (k : ascii) : Exn + ascii :=
  match d with
  | [] => inl (KeyError (String k EmptyString))
  | (k', v) :: d' => if Ascii.eqb k k' then inr v else getitem d' k
  end.

(** [''.join(map(lambda x: t[x], o))]: the characters are looked up from
    left to right, the first missing one raises. *)
Fixpoint translate (o : string) : Exn + string :=
  match o with
  | EmptyString => inr EmptyString
  | String x o' =>
      match getitem t x with
      | inl e => inl e
      | inr v =>
          match translate o' with
          | inl e => inl e
          | inr r => inr (String v r)
          end
      end
  end.

Definition newline : string := String (ascii_of_nat 10) EmptyString.

Definition matrix : string :=
  "a b c" ++ newline ++ "d e f" ++ newline ++ "g h i" ++ newline ++ "-----".

(** ** [TrezorCmdLineHandler.get_pin]: what is printed, and the value
    returned or the exception raised, [o] being the line [raw_input]
    reads. *)
Definition get_pin (msg o : string) : list string * (Exn + string) :=
  ([msg; matrix], translate o).

End Trezor.

(** The letters of the PIN matrix and the digits they stand for. *)
Definition pin_letters : list ascii := list_ascii_of_string "abcdefghi".
Definition pin_digits : list ascii := list_ascii_of_string "123456789".

(** * Proofs *)

Section Proofs.
Context {X : Externals}.
Local Open Scope list_scope.

(** ** The trace *)

Lemma log_log (evs1 evs2 : list Event) (s : SoloLayout) :
  log evs2 (log evs1 s) = log (evs1 ++ evs2) s.
Proof. unfold log; cbn. now rewrite app_assoc. Qed.

Lemma log_nil (s : SoloLayout) : log [] s = s.
Proof. destruct s; unfold log; cbn. now rewrite app_nil_r. Qed.

(** Two layouts with the same fields are the same layout. *)
Lemma layout_ext (s1 s2 : SoloLayout) :
  number_solo s1 = number_solo s2 ->
  is_solo_pro s1 = is_solo_pro s2 ->
  address s1 = address s2 ->
  solos s1 = solos s2 ->
  key s1 = key s2 ->
  next_enabled s1 = next_enabled s2 ->
  next_clicked s1 = next_clicked s2 ->
  back_clicked s1 = back_clicked s2 ->
  trace s1 = trace s2 ->
  s1 = s2.
Proof. destruct s1, s2; cbn; intros; subst; reflexivity. Qed.

(** Field by field, reading through the updates without expanding them. *)
Ltac fields :=
  lazy beta iota delta
    [number_solo is_solo_pro address solos key next_enabled next_clicked
     back_clicked trace set_address set_solos set_key set_next_enabled
     set_next_clicked set_back_clicked log rewired].

Ltac layout_eq :=
  apply layout_ext; fields; try reflexivity;
  rewrite <- ?app_assoc; reflexivity.

(** ** One secret of one entry *)

Lemma check_key_solonum_eq (solo : Solo) (s : SoloLayout) :
  wf_solo (number_solo s) solo = true ->
  check_key_solonum solo s = (Next (solonum (number_solo s) solo), s).
Proof.
  unfold wf_solo, check_key_solonum, solonum, currentIndex, bind, get, ret.
  destruct (1 <? number_solo s)%nat; [|reflexivity].
  destruct (cb solo); [reflexivity | discriminate].
Qed.

Lemma check_key_size_1 (solo : Solo) (sn : string) (sizesec : nat) (s : SoloLayout) :
  check_key_size solo "1" sn sizesec s =
  if size_ok sizesec (secret1 solo) then (Next tt, s)
  else (Returned tt, log [EvShowError (wrong_size_msg "1" sn sizesec)] s).
Proof.
  unfold check_key_size, size_ok, bind; cbn.
  destruct (String.length (secret1 solo) =? sizesec)%nat; cbn; [reflexivity|].
  destruct (String.length (secret1 solo) =? 30)%nat; reflexivity.
Qed.

Lemma check_key_size_2 (solo : Solo) (sn : string) (sizesec : nat) (s : SoloLayout) :
  check_key_size solo "2" sn sizesec s =
  if size_ok sizesec (secret2 solo) then (Next tt, s)
  else (Returned tt, log [EvShowError (wrong_size_msg "2" sn sizesec)] s).
Proof.
  unfold check_key_size, size_ok, bind; cbn.
  destruct (String.length (secret2 solo) =? sizesec)%nat; cbn; [reflexivity|].
  destruct (String.length (secret2 solo) =? 30)%nat; reflexivity.
Qed.

Lemma check_key_checksum_1 (solo : Solo) (sn : string) (s : SoloLayout) :
  check_key_checksum solo "1" sn s =
  if checksum_ok (secret1 solo) then (Next tt, log (verify_events (secret1 solo)) s)
  else (Returned tt,
        log [EvVerifySoloCheck (secret1 solo); EvShowError (bad_checksum_msg "1" sn)] s).
Proof.
  unfold check_key_checksum, checksum_ok, verify_events, bind; cbn.
  destruct (String.length (secret1 solo) =? 30)%nat; cbn.
  - destruct (verify_solo_check (secret1 solo)); cbn; [reflexivity|].
    now rewrite log_log.
  - now rewrite log_nil.
Qed.

Lemma check_key_checksum_2 (solo : Solo) (sn : string) (s : SoloLayout) :
  check_key_checksum solo "2" sn s =
  if checksum_ok (secret2 solo) then (Next tt, log (verify_events (secret2 solo)) s)
  else (Returned tt,
        log [EvVerifySoloCheck (secret2 solo); EvShowError (bad_checksum_msg "2" sn)] s).
Proof.
  unfold check_key_checksum, checksum_ok, verify_events, bind; cbn.
  destruct (String.length (secret2 solo) =? 30)%nat; cbn.
  - destruct (verify_solo_check (secret2 solo)); cbn; [reflexivity|].
    now rewrite log_log.
  - now rewrite log_nil.
Qed.

Lemma check_key_secret_1 (solo : Solo) (s : SoloLayout) :
  wf_solo (number_solo s) solo = true ->
  check_key_secret solo ("1", 28) s =
  if secret_ok 28 (secret1 solo)
  then (Next tt, log (verify_events (secret1 solo)) s)
  else (Returned tt, log (refusal_1 (number_solo s) solo) s).
Proof.
  intros Hwf. unfold check_key_secret, bind at 1.
  rewrite (check_key_solonum_eq _ _ Hwf). cbn [fst snd].
  unfold bind. rewrite check_key_size_1.
  unfold secret_ok, refusal_1.
  destruct (size_ok 28 (secret1 solo)); cbn [andb]; [|reflexivity].
  rewrite check_key_checksum_1.
  destruct (checksum_ok (secret1 solo)); reflexivity.
Qed.

Lemma check_key_secret_2 (solo : Solo) (s : SoloLayout) :
  wf_solo (number_solo s) solo = true ->
  check_key_secret solo ("2", 14) s =
  if secret_ok 14 (secret2 solo)
  then (Next tt, log (verify_events (secret2 solo)) s)
  else (Returned tt, log (refusal_2 (number_solo s) solo) s).
Proof.
  intros Hwf. unfold check_key_secret, bind at 1.
  rewrite (check_key_solonum_eq _ _ Hwf). cbn [fst snd].
  unfold bind. rewrite check_key_size_2.
  unfold secret_ok, refusal_2.
  destruct (size_ok 14 (secret2 solo)); cbn [andb]; [|reflexivity].
  rewrite check_key_checksum_2.
  destruct (checksum_ok (secret2 solo)); reflexivity.
Qed.

(** The inner loop, for one entry. *)
Lemma check_key_entry (solo : Solo) (s : SoloLayout) :
  wf_solo (number_solo s) solo = true ->
  for_each secret_sizes (check_key_secret solo) s =
  if solo_ok solo
  then (Next tt, log (solo_events solo) s)
  else (Returned tt, log (refusal (number_solo s) solo) s).
Proof.
  intros Hwf. unfold secret_sizes. cbn [for_each]. unfold bind at 1.
  rewrite (check_key_secret_1 _ _ Hwf).
  unfold solo_ok, refusal, solo_events.
  destruct (secret_ok 28 (secret1 solo)); cbn [andb]; [|reflexivity].
  unfold bind at 1.
  rewrite check_key_secret_2 by exact Hwf.
  destruct (secret_ok 14 (secret2 solo)); cbn [ret]; now rewrite log_log.
Qed.

(** ** The loop over the entries *)

Lemma check_key_secrets_pass (l : list Solo) (s : SoloLayout) :
  forallb (wf_solo (number_solo s)) l = true ->
  forallb solo_ok l = true ->
  check_key_secrets l s = (Next tt, log (flat_map solo_events l) s).
Proof.
  revert s. induction l as [|solo l IH]; intros s Hwf Hok.
  - cbn. now rewrite log_nil.
  - cbn in Hwf, Hok. apply andb_prop in Hwf as [Hw Hwf], Hok as [Ho Hok].
    unfold check_key_secrets in *. cbn [for_each]. unfold bind at 1.
    rewrite (check_key_entry _ _ Hw), Ho.
    rewrite IH by assumption. now rewrite log_log.
Qed.

Lemma check_key_secrets_fail (pre post : list Solo) (solo : Solo) (s : SoloLayout) :
  forallb (wf_solo (number_solo s)) (pre ++ solo :: post) = true ->
  forallb solo_ok pre = true ->
  solo_ok solo = false ->
  check_key_secrets (pre ++ solo :: post) s =
  (Returned tt, log (flat_map solo_events pre ++ refusal (number_solo s) solo) s).
Proof.
  revert s. induction pre as [|p pre IH]; intros s Hwf Hok Hbad.
  - cbn in Hwf. apply andb_prop in Hwf as [Hw _].
    unfold check_key_secrets. cbn [app for_each flat_map]. unfold bind at 1.
    now rewrite (check_key_entry _ _ Hw), Hbad.
  - cbn in Hwf, Hok. apply andb_prop in Hwf as [Hw Hwf], Hok as [Ho Hok].
    unfold check_key_secrets in *. cbn [app for_each flat_map]. unfold bind at 1.
    rewrite (check_key_entry _ _ Hw), Ho.
    rewrite IH by assumption. rewrite log_log. now rewrite app_assoc.
Qed.

(** A list with a refused entry splits at the first one. *)
Lemma first_refused (l : list Solo) :
  forallb solo_ok l = false ->
  exists pre solo post,
    l = pre ++ solo :: post /\ forallb solo_ok pre = true /\ solo_ok solo = false.
Proof.
  induction l as [|a l IH]; intros H; [discriminate|].
  cbn in H. destruct (solo_ok a) eqn:Ha.
  - destruct (IH H) as (pre & solo & post & -> & Hpre & Hs).
    exists (a :: pre), solo, post. cbn. now rewrite Ha.
  - now exists [], a, l.
Qed.

(** ** [get_key] *)

Lemma get_key_strip_eq (t : string) (s : SoloLayout) :
  get_key_strip t s =
  if checksum_ok t then (Next (strip t), log (verify_events t) s)
  else (Raised (NameError "wrong_secret"), log [EvVerifySoloCheck t] s).
Proof.
  unfold get_key_strip, checksum_ok, strip, verify_events.
  destruct (String.length t =? 30)%nat.
  - unfold bind, call_verify_solo_check, emit, modify, ret; cbn.
    destruct (verify_solo_check t); reflexivity.
  - cbn. now rewrite log_nil.
Qed.

Lemma get_key_shares_eq (l : list Solo) (n : nat) (a1 a2 : list (Z * string))
      (s : SoloLayout) :
  (1 <? n)%nat = true ->
  forallb (wf_solo n) l = true ->
  for_acc l
    (fun solo '(secret1_shares, secret2_shares) =>
       i1 <- currentIndex solo ;;
       t1 <- text solo "secret1" ;;
       i2 <- currentIndex solo ;;
       t2 <- text solo "secret2" ;;
       @ret (option string) _
           ((secret1_shares ++ [((i1 + 1)%Z, t1)])%list,
            (secret2_shares ++ [((i2 + 1)%Z, t2)])%list))
    (a1, a2) s =
  (Next ((a1 ++ shares_of secret1 l)%list, (a2 ++ shares_of secret2 l)%list), s).
Proof.
  intros Hn. revert a1 a2. induction l as [|solo l IH]; intros a1 a2 Hwf.
  - cbn. now rewrite !app_nil_r.
  - cbn in Hwf. apply andb_prop in Hwf as [Hw Hwf].
    unfold wf_solo in Hw. rewrite Hn in Hw.
    cbn [for_acc]. unfold bind at 1. unfold currentIndex, bind.
    destruct (cb solo) as [i|] eqn:Hcb; [|discriminate]. cbn.
    fold (@bind (option string)).
    rewrite IH by assumption. unfold shares_of. cbn [map]. rewrite Hcb.
    now rewrite <- !app_assoc.
Qed.

Lemma wf_single (s : SoloLayout) :
  wf s = true -> (number_solo s =? 1)%nat = true -> exists solo, solos s = [solo].
Proof.
  unfold wf. intros H H1. apply Nat.eqb_eq in H1.
  apply andb_prop in H as [H _]. apply andb_prop in H as [H _].
  apply Nat.eqb_eq in H. rewrite H1 in H.
  destruct (solos s) as [|solo [|? ?]]; try discriminate. now exists solo.
Qed.

Lemma wf_several (s : SoloLayout) :
  wf s = true -> (number_solo s =? 1)%nat = false -> (1 <? number_solo s)%nat = true.
Proof.
  unfold wf. intros H H1. apply Nat.eqb_neq in H1.
  apply andb_prop in H as [H _]. apply andb_prop in H as [_ H].
  apply Nat.leb_le in H. apply Nat.ltb_lt. lia.
Qed.

Lemma wf_solos (s : SoloLayout) :
  wf s = true -> forallb (wf_solo (number_solo s)) (solos s) = true.
Proof. unfold wf. intros H. now apply andb_prop in H as [_ H]. Qed.

(** The state [get_key] leaves when it reaches its end. *)
Lemma get_key_eq (s : SoloLayout) :
  wf s = true ->
  get_key_ready s = true ->
  get_key s =
  (Returned (get_key_result s),
   set_key (Some (derived_key s)) (log (get_key_events s) s)).
Proof.
  intros Hwf Hready.
  unfold get_key, get_key_ready, get_key_result, get_key_events, derived_key,
    derived_secrets in *.
  unfold bind at 1, get at 1.
  destruct (number_solo s =? 1)%nat eqn:Hn.
  - destruct (wf_single _ Hwf Hn) as [solo Hs]. rewrite Hs in *.
    cbn in Hready. rewrite andb_true_r in Hready.
    apply andb_prop in Hready as [H1 H2].
    unfold bind at 1. unfold bind at 1. unfold solos_item at 1, bind at 1, get at 1.
    rewrite Hs. cbn [nth_error ret].
    unfold bind at 1. cbn [text String.eqb Ascii.eqb Bool.eqb ret].
    unfold bind at 1. unfold solos_item at 1, bind at 1, get at 1.
    rewrite Hs. cbn [nth_error ret].
    unfold bind at 1. cbn [text String.eqb Ascii.eqb Bool.eqb ret].
    unfold bind at 1. rewrite get_key_strip_eq, H1.
    unfold bind at 1. rewrite get_key_strip_eq, H2.
    cbn [ret fst snd].
    unfold bind, call_compute_privatekey_bitcoin, call_address_from_private_key,
      emit, modify, get, ret, return_. cbn.
    destruct (_ =? address s)%string; (f_equal; layout_eq).
  - pose proof (wf_several _ Hwf Hn) as Hlt.
    unfold bind at 1. unfold bind at 1. unfold get_key_shares.
    rewrite (get_key_shares_eq _ _ _ _ _ Hlt (wf_solos _ Hwf)).
    cbn [app fst snd].
    unfold bind, call_reconstruct, call_compute_privatekey_bitcoin,
      call_address_from_private_key, emit, modify, get, ret, return_. cbn.
    destruct (_ =? address s)%string; (f_equal; layout_eq).
Qed.

(** With one Solo and a 30 character secret whose checksum is wrong,
    [get_key] stops on the name [wrong_secret]. *)
Lemma get_key_raises (s : SoloLayout) :
  wf s = true ->
  get_key_ready s = false ->
  exists evs,
    get_key s = (Raised (NameError "wrong_secret"), log evs s).
Proof.
  intros Hwf Hready.
  unfold get_key, get_key_ready in *.
  unfold bind at 1, get at 1.
  destruct (number_solo s =? 1)%nat eqn:Hn; [|discriminate].
  destruct (wf_single _ Hwf Hn) as [solo Hs]. rewrite Hs in *.
  cbn in Hready. rewrite andb_true_r in Hready.
  unfold bind at 1. unfold bind at 1. unfold solos_item at 1, bind at 1, get at 1.
  rewrite Hs. cbn [nth_error ret].
  unfold bind at 1. cbn [text String.eqb Ascii.eqb Bool.eqb ret].
  unfold bind at 1. unfold solos_item at 1, bind at 1, get at 1.
  rewrite Hs. cbn [nth_error ret].
  unfold bind at 1. cbn [text String.eqb Ascii.eqb Bool.eqb ret].
  unfold bind at 1. rewrite get_key_strip_eq.
  destruct (checksum_ok (secret1 solo)).
  - cbn in Hready. unfold bind at 1. rewrite get_key_strip_eq, Hready.
    rewrite log_log. eauto.
  - eauto.
Qed.

(** ** [check_key] *)

Lemma reset_buttons_eq (R : Type) (s : SoloLayout) :
  @call unit R reset_buttons s = (Next tt, rewired s).
Proof. reflexivity. Qed.

Lemma solo_ok_ready (l : list Solo) :
  forallb solo_ok l = true ->
  forallb (fun solo => checksum_ok (secret1 solo) && checksum_ok (secret2 solo))%bool l
  = true.
Proof.
  induction l as [|solo l IH]; [reflexivity|]. cbn. intros H.
  apply andb_prop in H as [H Hl]. rewrite (IH Hl), andb_true_r.
  unfold solo_ok, secret_ok in H.
  apply andb_prop in H as [H1 H2].
  apply andb_prop in H1 as [_ H1]. apply andb_prop in H2 as [_ H2].
  now rewrite H1, H2.
Qed.

(** A refused secret: the error is shown and [check_key] returns. *)
Lemma check_key_refused (s : SoloLayout) (pre post : list Solo) (solo : Solo) :
  wf s = true ->
  solos s = pre ++ solo :: post ->
  forallb solo_ok pre = true ->
  solo_ok solo = false ->
  @call unit unit check_key s =
  (Next tt, log (flat_map solo_events pre ++ refusal (number_solo s) solo) s).
Proof.
  intros Hwf Hs Hpre Hbad. unfold call, check_key, bind at 1, get at 1.
  unfold bind at 1. rewrite Hs.
  rewrite check_key_secrets_fail; auto.
  rewrite <- Hs. now apply wf_solos.
Qed.

(** Every secret passes and the address is not one. *)
Lemma check_key_invalid_address (s : SoloLayout) :
  wf s = true ->
  forallb solo_ok (solos s) = true ->
  is_address (address s) = false ->
  @call unit unit check_key s =
  (Next tt, log (checked_events s ++ [EvShowError invalid_address_msg]) s).
Proof.
  intros Hwf Hok Haddr. unfold call, check_key, bind at 1, get at 1.
  unfold bind at 1.
  rewrite check_key_secrets_pass; auto using wf_solos.
  unfold bind, get, call_is_address, emit, modify, ret, show_error, return_; cbn.
  rewrite Haddr. cbn. unfold checked_events.
  f_equal. layout_eq.
Qed.

(** Every secret passes and the address is one: [get_key] decides. *)
Lemma check_key_decided (s : SoloLayout) :
  wf s = true ->
  forallb solo_ok (solos s) = true ->
  is_address (address s) = true ->
  @call unit unit check_key s =
  (Next tt,
   match get_key_result s with
   | Some _ =>
       rewired (set_key (Some (derived_key s))
                  (log (checked_events s ++ get_key_events s ++ [EvLoopExit 2]) s))
   | None =>
       set_key (Some (derived_key s))
         (log (checked_events s ++ get_key_events s ++ [EvShowError mismatch_msg]) s)
   end).
Proof.
  intros Hwf Hok Haddr. unfold call at 1, check_key, bind at 1, get at 1.
  unfold bind at 1.
  rewrite check_key_secrets_pass; auto using wf_solos.
  unfold bind at 1, get at 1. unfold bind at 1.
  unfold call_is_address at 1, bind at 1, emit, modify, ret.
  cbn [address log]. rewrite Haddr. cbn [negb].
  unfold bind at 1. unfold bind at 1. unfold call at 1.
  rewrite get_key_eq.
  2:{ exact Hwf. }
  2:{ unfold get_key_ready. cbn [number_solo solos log].
      destruct (number_solo s =? 1)%nat; [|reflexivity].
      now apply solo_ok_ready. }
  change (get_key_result (log _ (log _ s))) with (get_key_result s).
  change (derived_key (log _ (log _ s))) with (derived_key s).
  change (get_key_events (log _ (log _ s))) with (get_key_events s).
  unfold checked_events.
  destruct (get_key_result s).
  - unfold bind, call, reset_buttons, loop_exit, emit, modify, ret; cbn.
    f_equal. layout_eq.
  - unfold show_error, emit, modify; cbn.
    f_equal. layout_eq.
Qed.

(** ** [on_edit] *)

Lemma on_edit_loop (n : nat) (l : list Solo) (b : bool) (indexes : list Z)
      (s : SoloLayout) :
  number_solo s = n ->
  forallb (wf_solo n) l = true ->
  for_acc l
    (fun solo '(b, indexes) =>
       t1 <- text solo "secret1" ;;
       let b := (b && is_base58 t1)%bool in
       t2 <- text solo "secret2" ;;
       let b := (b && is_base58 t2)%bool in
       s' <- get ;;
       if (1 <? number_solo s')%nat then
         ind <- currentIndex solo ;;
         let b := (b && negb (existsb (Z.eqb ind) indexes))%bool in
         @ret unit _ (b, (indexes ++ [ind])%list)
       else ret (b, indexes))
    (b, indexes) s =
  (Next ((b && (forallb (fun solo => is_base58 (secret1 solo) && is_base58 (secret2 solo))
                        l
                && (if (1 <? n)%nat then distinct_from indexes (indexes_of l)
                    else true)))%bool,
         if (1 <? n)%nat then indexes ++ indexes_of l else indexes), s).
Proof.
  intros Hn. revert b indexes.
  induction l as [|solo l IH]; intros b indexes Hwf.
  - cbn [for_acc forallb indexes_of flat_map distinct_from]. unfold ret.
    destruct (1 <? n)%nat; now rewrite ?app_nil_r, andb_true_r.
  - cbn in Hwf. apply andb_prop in Hwf as [Hw Hwf].
    cbn [for_acc]. unfold bind at 1.
    unfold bind at 1. cbn [text String.eqb Ascii.eqb Bool.eqb ret].
    unfold bind at 1. cbn [text String.eqb Ascii.eqb Bool.eqb ret].
    unfold bind at 1, get at 1. rewrite Hn.
    unfold wf_solo in Hw. cbn [forallb indexes_of flat_map].
    destruct (1 <? n)%nat eqn:Hlt.
    + destruct (cb solo) as [i|] eqn:Hcb; [|discriminate].
      unfold currentIndex, bind at 1. rewrite Hcb. cbn [ret].
      rewrite IH by assumption. cbn [app distinct_from].
      rewrite <- app_assoc. cbn [app]. f_equal. f_equal. f_equal.
      destruct b, (is_base58 (secret1 solo)), (is_base58 (secret2 solo)),
        (existsb (Z.eqb i) indexes); cbn [andb negb];
        rewrite ?andb_false_r; reflexivity.
    + cbn [ret]. rewrite IH by assumption. f_equal. f_equal. f_equal.
      destruct b, (is_base58 (secret1 solo)), (is_base58 (secret2 solo));
        cbn [andb negb]; rewrite ?andb_false_r; reflexivity.
Qed.

Lemma on_edit_eq (s : SoloLayout) :
  wf s = true ->
  @call unit unit on_edit s = (Next tt, set_next_enabled (edit_ok s) s).
Proof.
  intros Hwf. unfold call, on_edit, bind at 1, get at 1. unfold bind at 1.
  rewrite (on_edit_loop (number_solo s)); auto using wf_solos.
Qed.

Lemma distinct_from_NoDup (l seen : list Z) :
  distinct_from seen l = true -> NoDup seen -> NoDup (seen ++ l).
Proof.
  revert seen. induction l as [|i l IH]; intros seen H Hseen.
  - now rewrite app_nil_r.
  - cbn in H. apply andb_prop in H as [Hi H].
    replace (seen ++ i :: l) with ((seen ++ [i]) ++ l)
      by now rewrite <- app_assoc.
    apply IH; [exact H|].
    pose proof (Add_app i seen []) as HA. rewrite app_nil_r in HA.
    apply (NoDup_Add HA). split; [exact Hseen|].
    { intros Hin. apply negb_true_iff in Hi.
      assert (existsb (Z.eqb i) seen = true) as E
        by (apply existsb_exists; exists i; split; [exact Hin | apply Z.eqb_refl]).
      congruence. }
Qed.

Lemma shares_of_indexes (n : nat) (field : Solo -> string) (l : list Solo) :
  (1 <? n)%nat = true ->
  forallb (wf_solo n) l = true ->
  map fst (shares_of field l) = map (fun i => (i + 1)%Z) (indexes_of l).
Proof.
  intros Hn. induction l as [|solo l IH]; [reflexivity|].
  cbn [forallb]. intros H. apply andb_prop in H as [Hw H].
  unfold wf_solo in Hw. rewrite Hn in Hw.
  unfold shares_of, indexes_of in *. cbn [map flat_map fst].
  destruct (cb solo); [|discriminate]. cbn [map app]. now rewrite IH.
Qed.

Lemma shares_of_distinct (s : SoloLayout) (field : Solo -> string) :
  wf s = true ->
  (number_solo s =? 1)%nat = false ->
  edit_ok s = true ->
  NoDup (map fst (shares_of field (solos s))).
Proof.
  intros Hwf Hn Hok. pose proof (wf_several _ Hwf Hn) as Hlt.
  rewrite (shares_of_indexes (number_solo s)); auto using wf_solos.
  unfold edit_ok in Hok. rewrite Hlt in Hok. apply andb_prop in Hok as [_ Hok].
  apply Injective_map_NoDup.
  - intros x y. lia.
  - apply (distinct_from_NoDup _ []); [exact Hok | constructor].
Qed.

(** ** The session invariant *)

Lemma replace_nth_length {A} (i : nat) (x : A) (l : list A) :
  List.length (replace_nth i x l) = List.length l.
Proof.
  revert i. induction l as [|y l IH]; intros [|i]; cbn; auto.
Qed.

Lemma replace_nth_forallb {A} (P : A -> bool) (i : nat) (x : A) (l : list A) :
  P x = true -> forallb P l = true -> forallb P (replace_nth i x l) = true.
Proof.
  intros Hx. revert i. induction l as [|y l IH]; intros [|i] H; cbn in *; auto.
  - apply andb_prop in H as [_ H]. now rewrite Hx.
  - apply andb_prop in H as [Hy H]. now rewrite Hy, IH.
Qed.

Lemma wf_replace (s : SoloLayout) (i : nat) (old new : Solo) :
  wf s = true ->
  nth_error (solos s) i = Some old ->
  (cb old = None -> cb new = None) ->
  (cb old <> None -> cb new <> None) ->
  wf (set_solos (replace_nth i new (solos s)) s) = true.
Proof.
  unfold wf. cbn [solos number_solo set_solos]. intros H Hnth Hnone Hsome.
  apply andb_prop in H as [H Hall]. rewrite replace_nth_length, H. cbn [andb].
  apply replace_nth_forallb; [|exact Hall].
  assert (wf_solo (number_solo s) old = true) as Hold.
  { apply nth_error_In in Hnth. rewrite forallb_forall in Hall. now apply Hall. }
  unfold wf_solo in *. destruct (1 <? number_solo s)%nat; [|reflexivity].
  destruct (cb old); [|discriminate].
  destruct (cb new); [reflexivity|]. exfalso. now apply Hsome.
Qed.

Lemma verify_events_distinct (t : string) :
  Forall reconstruct_distinct (verify_events t).
Proof.
  unfold verify_events. destruct (_ =? _)%nat; repeat constructor.
Qed.

Lemma solo_events_distinct (l : list Solo) :
  Forall reconstruct_distinct (flat_map solo_events l).
Proof.
  induction l as [|solo l IH]; cbn; [constructor|].
  unfold solo_events. rewrite !Forall_app.
  auto using verify_events_distinct.
Qed.

Lemma refusal_distinct (n : nat) (solo : Solo) :
  Forall reconstruct_distinct (refusal n solo).
Proof.
  unfold refusal, refusal_1, refusal_2.
  destruct (secret_ok 28 (secret1 solo)); rewrite ?Forall_app;
    repeat split; try apply verify_events_distinct;
    destruct (size_ok _ _); repeat constructor.
Qed.

Lemma get_key_events_distinct (s : SoloLayout) :
  wf s = true ->
  edit_ok s = true ->
  Forall reconstruct_distinct (get_key_events s).
Proof.
  intros Hwf Hok. unfold get_key_events. rewrite Forall_app. split.
  - destruct (number_solo s =? 1)%nat eqn:Hn.
    + destruct (solos s); [constructor|].
      rewrite Forall_app. auto using verify_events_distinct.
    + repeat constructor; cbn; now apply shares_of_distinct.
  - repeat constructor.
Qed.

(** After an edit, [on_edit] re-establishes the invariant. *)
Lemma on_edit_inv (s : SoloLayout) :
  wf s = true ->
  (next_clicked s = [SlotCheckKey] \/ next_clicked s = [SlotExit 2]) ->
  (back_clicked s = [SlotBack] \/ back_clicked s = [SlotExit 1]) ->
  Forall reconstruct_distinct (trace s) ->
  exists s', @call unit unit on_edit s = (Next tt, s') /\ session_inv s'
             /\ next_enabled s' = edit_ok s'.
Proof.
  intros Hwf Hn Hb Ht. rewrite (on_edit_eq _ Hwf). eexists. split; [reflexivity|].
  unfold session_inv. cbn. auto 6.
Qed.

(** Logging calls that keep the numbers of the shares distinct, and
    rewiring the buttons, keeps a layout in the session. *)
Lemma session_inv_after (s s' : SoloLayout) (evs : list Event) :
  session_inv s ->
  number_solo s' = number_solo s ->
  solos s' = solos s ->
  next_enabled s' = next_enabled s ->
  (next_clicked s' = [SlotCheckKey] \/ next_clicked s' = [SlotExit 2]) ->
  (back_clicked s' = [SlotBack] \/ back_clicked s' = [SlotExit 1]) ->
  trace s' = trace s ++ evs ->
  Forall reconstruct_distinct evs ->
  session_inv s'.
Proof.
  intros (Hwf & Hen & Hn & Hb & Ht) En Es Ee Hn' Hb' Et Hev.
  unfold session_inv, wf, edit_ok in *. rewrite En, Es, Ee, Et.
  repeat split; auto. rewrite Forall_app. auto.
Qed.

(** [check_key], run from a layout of a session, returns to the session. *)
Lemma check_key_inv (s : SoloLayout) :
  session_inv s ->
  next_enabled s = true ->
  exists s', @call unit unit check_key s = (Next tt, s') /\ session_inv s'.
Proof.
  intros Hinv Hon. pose proof Hinv as (Hwf & Hen & Hn & Hb & Ht).
  specialize (Hen Hon).
  destruct (forallb solo_ok (solos s)) eqn:Hok.
  - destruct (is_address (address s)) eqn:Haddr.
    + rewrite (check_key_decided _ Hwf Hok Haddr). eexists. split; [reflexivity|].
      assert (Forall reconstruct_distinct (checked_events s ++ get_key_events s)) as Hev.
      { unfold checked_events. rewrite !Forall_app. repeat split.
        - apply solo_events_distinct.
        - repeat constructor.
        - now apply get_key_events_distinct. }
      rewrite Forall_app in Hev. destruct Hev as [Hev1 Hev2].
      destruct (get_key_result s).
      * apply (session_inv_after s _
                 (checked_events s ++ get_key_events s ++ [EvLoopExit 2]) Hinv);
          try reflexivity; auto.
        rewrite !Forall_app. repeat split; auto. repeat constructor.
      * apply (session_inv_after s _
                 (checked_events s ++ get_key_events s ++ [EvShowError mismatch_msg])
                 Hinv);
          try reflexivity; auto.
        rewrite !Forall_app. repeat split; auto. repeat constructor.
    + rewrite (check_key_invalid_address _ Hwf Hok Haddr).
      eexists. split; [reflexivity|].
      apply (session_inv_after s _
               (checked_events s ++ [EvShowError invalid_address_msg]) Hinv);
        try reflexivity; auto.
      unfold checked_events. rewrite !Forall_app.
      repeat split; try apply solo_events_distinct; repeat constructor.
  - destruct (first_refused _ Hok) as (pre & solo & post & Hs & Hpre & Hbad).
    rewrite (check_key_refused _ _ _ _ Hwf Hs Hpre Hbad).
    eexists. split; [reflexivity|].
    apply (session_inv_after s _
             (flat_map solo_events pre ++ refusal (number_solo s) solo) Hinv);
      try reflexivity; auto.
    rewrite Forall_app. split.
    + apply solo_events_distinct.
    + apply refusal_distinct.
Qed.

Lemma init_inv (pro : bool) : session_inv (init pro).
Proof.
  unfold session_inv. destruct pro; cbn; repeat split; auto; discriminate.
Qed.

(** An edit followed by [on_edit]. *)
Lemma edit_inv (s s1 : SoloLayout) :
  session_inv s ->
  wf s1 = true ->
  next_clicked s1 = next_clicked s ->
  back_clicked s1 = back_clicked s ->
  trace s1 = trace s ->
  exists s',
    (@modify unit (fun _ => s1) ;;; @call unit unit on_edit) s = (Next tt, s')
    /\ session_inv s'.
Proof.
  intros (_ & _ & Hn & Hb & Ht) Hwf En Eb Et.
  unfold bind, modify. rewrite <- En in Hn. rewrite <- Eb in Hb. rewrite <- Et in Ht.
  destruct (on_edit_inv s1 Hwf Hn Hb Ht) as (s' & -> & Hinv & _).
  now exists s'.
Qed.

Lemma gui_step_inv (e : GuiEvent) (s : SoloLayout) :
  session_inv s ->
  exists s', gui_step e s = (Next tt, s') /\ session_inv s'.
Proof.
  intros Hinv. pose proof Hinv as (Hwf & Hen & Hn & Hb & Ht).
  unfold gui_step, bind at 1, get at 1.
  destruct e as [t | i t | i t | i ind | | ].
  - destruct (t =? address s)%string; [now exists s|].
    apply (edit_inv s (set_address t s)); auto.
  - destruct (nth_error (solos s) i) as [solo|] eqn:Hnth; [|now exists s].
    destruct (slice_to 30 t =? secret1 solo)%string; [now exists s|].
    apply (edit_inv s (set_solos _ s)); auto.
    now apply (wf_replace s i solo).
  - destruct (nth_error (solos s) i) as [solo|] eqn:Hnth; [|now exists s].
    destruct (slice_to 30 t =? secret2 solo)%string; [now exists s|].
    apply (edit_inv s (set_solos _ s)); auto.
    now apply (wf_replace s i solo).
  - destruct (nth_error (solos s) i) as [solo|] eqn:Hnth; [|now exists s].
    destruct (cb solo) as [old|] eqn:Hcb; [|now exists s].
    destruct (_ && _ && _)%bool; [|now exists s].
    apply (edit_inv s (set_solos _ s)); auto.
    apply (wf_replace s i solo); auto; cbn; congruence.
  - destruct (next_enabled s) eqn:Hon; [|now exists s].
    unfold emit_clicked. destruct Hn as [E | E]; rewrite E; cbn [for_each run_slot].
    + destruct (check_key_inv s Hinv Hon) as (s' & Hck & Hinv').
      unfold bind. rewrite Hck. now exists s'.
    + eexists. split; [reflexivity|].
      apply (session_inv_after s _ [EvLoopExit 2] Hinv); try reflexivity; auto.
      repeat constructor.
  - unfold emit_clicked. destruct Hb as [E | E]; rewrite E; cbn [for_each run_slot].
    + eexists. split; [reflexivity|].
      apply (session_inv_after s _ [EvLoopExit 1] Hinv); try reflexivity; auto.
      repeat constructor.
    + eexists. split; [reflexivity|].
      apply (session_inv_after s _ [EvLoopExit 1] Hinv); try reflexivity; auto.
      repeat constructor.
Qed.

Lemma gui_run_inv (evs : list GuiEvent) (s : SoloLayout) :
  session_inv s ->
  exists s', gui_run evs s = (Next tt, s') /\ session_inv s'.
Proof.
  revert s. induction evs as [|e evs IH]; intros s Hinv.
  - now exists s.
  - destruct (gui_step_inv e s Hinv) as (s1 & Hstep & Hinv1).
    destruct (IH s1 Hinv1) as (s' & Hrun & Hinv').
    exists s'. split; [|exact Hinv'].
    unfold gui_run in *. cbn [for_each]. unfold bind. now rewrite Hstep.
Qed.

(** ** Further facts used by the statements *)

Lemma slice_to_length (n : nat) (t : string) :
  String.length (slice_to n t) = Nat.min n (String.length t).
Proof.
  unfold slice_to. revert t. induction n as [|n IH]; intros [|c t]; cbn; auto.
Qed.

Lemma strip_30 (t : string) :
  String.length t = 30%nat ->
  strip t = slice_to 29 t /\ String.length (strip t) = 29%nat.
Proof.
  intros H. unfold strip. rewrite H. cbn [Nat.eqb].
  split; [reflexivity|]. rewrite slice_to_length, H. reflexivity.
Qed.

Lemma strip_other (t : string) : String.length t <> 30%nat -> strip t = t.
Proof.
  intros H. unfold strip. apply Nat.eqb_neq in H. now rewrite H.
Qed.

Lemma verify_events_not_reconstruct (t : string) :
  Forall not_reconstruct (verify_events t).
Proof.
  unfold verify_events. destruct (_ =? _)%nat; repeat constructor.
Qed.

Lemma solo_events_not_reconstruct (l : list Solo) :
  Forall not_reconstruct (flat_map solo_events l).
Proof.
  induction l as [|solo l IH]; cbn; [constructor|].
  unfold solo_events. rewrite !Forall_app.
  auto using verify_events_not_reconstruct.
Qed.

Lemma refusal_not_reconstruct (n : nat) (solo : Solo) :
  Forall not_reconstruct (refusal n solo).
Proof.
  unfold refusal, refusal_1, refusal_2.
  destruct (secret_ok 28 (secret1 solo)); rewrite ?Forall_app;
    repeat split; try apply verify_events_not_reconstruct;
    destruct (size_ok _ _); repeat constructor.
Qed.

Lemma not_reconstruct_In (evs : list Event) (sh : list (Z * string)) (n : nat) :
  Forall not_reconstruct evs -> ~ In (EvReconstruct sh n) evs.
Proof.
  intros H Hin. rewrite Forall_forall in H. exact (H _ Hin).
Qed.

(** An event that is not [loop.exit]. *)
Lemma verify_events_no_exit (t : string) (c : Z) :
  ~ In (EvLoopExit c) (verify_events t).
Proof.
  unfold verify_events. destruct (_ =? _)%nat; cbn; intuition discriminate.
Qed.

Lemma solo_events_no_exit (l : list Solo) (c : Z) :
  ~ In (EvLoopExit c) (flat_map solo_events l).
Proof.
  induction l as [|solo l IH]; cbn; [tauto|].
  unfold solo_events. rewrite !in_app_iff.
  pose proof (verify_events_no_exit (secret1 solo) c).
  pose proof (verify_events_no_exit (secret2 solo) c). tauto.
Qed.

Lemma refusal_no_exit (n : nat) (solo : Solo) (c : Z) :
  ~ In (EvLoopExit c) (refusal n solo).
Proof.
  unfold refusal, refusal_1, refusal_2.
  pose proof (verify_events_no_exit (secret1 solo) c).
  destruct (secret_ok 28 (secret1 solo)); rewrite ?in_app_iff;
    destruct (size_ok _ _); cbn; intuition discriminate.
Qed.

Lemma get_key_events_no_exit (s : SoloLayout) (c : Z) :
  ~ In (EvLoopExit c) (get_key_events s).
Proof.
  unfold get_key_events. rewrite in_app_iff.
  destruct (number_solo s =? 1)%nat.
  - destruct (solos s) as [|solo ?]; cbn; [intuition discriminate|].
    rewrite in_app_iff.
    pose proof (verify_events_no_exit (secret1 solo) c).
    pose proof (verify_events_no_exit (secret2 solo) c).
    intuition discriminate.
  - cbn; intuition discriminate.
Qed.

(** A refusal ends with the error shown to the user. *)
Lemma refusal_shows_error (n : nat) (solo : Solo) :
  exists before msg, refusal n solo = before ++ [EvShowError msg].
Proof.
  unfold refusal, refusal_1, refusal_2.
  destruct (secret_ok 28 (secret1 solo)).
  - destruct (size_ok 14 (secret2 solo)).
    + exists (verify_events (secret1 solo) ++ [EvVerifySoloCheck (secret2 solo)]).
      eexists. rewrite <- app_assoc. reflexivity.
    + exists (verify_events (secret1 solo)). eexists. reflexivity.
  - destruct (size_ok 28 (secret1 solo)).
    + exists [EvVerifySoloCheck (secret1 solo)]. eexists. reflexivity.
    + exists []. eexists. reflexivity.
Qed.

Lemma solo_ok_In (l : list Solo) (solo : Solo) :
  forallb solo_ok l = true -> In solo l -> solo_ok solo = true.
Proof. intros H Hin. rewrite forallb_forall in H. now apply H. Qed.

(** The number that goes with a share is [currentIndex()+1]. *)
Lemma shares_of_numbered (n : nat) (field : Solo -> string) (l : list Solo) :
  (1 <? n)%nat = true ->
  forallb (wf_solo n) l = true ->
  Forall2 (numbered field) (shares_of field l) l.
Proof.
  intros Hn. induction l as [|solo l IH]; [constructor|].
  cbn [forallb]. intros H. apply andb_prop in H as [Hw H].
  unfold wf_solo in Hw. rewrite Hn in Hw.
  unfold shares_of in *. cbn [map]. constructor; [|exact (IH H)].
  unfold numbered. destruct (cb solo) as [i|]; [|discriminate].
  exists i. split; reflexivity.
Qed.


(** Nothing is derived while the secrets are checked or refused. *)
Lemma verify_events_no_compute (t a b : string) :
  ~ In (EvComputePrivatekey a b) (verify_events t).
Proof.
  unfold verify_events. destruct (_ =? _)%nat; cbn; intuition discriminate.
Qed.

Lemma solo_events_no_compute (l : list Solo) (a b : string) :
  ~ In (EvComputePrivatekey a b) (flat_map solo_events l).
Proof.
  induction l as [|solo l IH]; cbn; [tauto|].
  unfold solo_events. rewrite !in_app_iff.
  pose proof (verify_events_no_compute (secret1 solo) a b).
  pose proof (verify_events_no_compute (secret2 solo) a b). tauto.
Qed.

Lemma refusal_no_compute (n : nat) (solo : Solo) (a b : string) :
  ~ In (EvComputePrivatekey a b) (refusal n solo).
Proof.
  unfold refusal, refusal_1, refusal_2.
  pose proof (verify_events_no_compute (secret1 solo) a b).
  destruct (secret_ok 28 (secret1 solo)); rewrite ?in_app_iff;
    destruct (size_ok _ _); cbn; intuition discriminate.
Qed.

(** When [get_key] raises, it has derived nothing. *)
Lemma get_key_raises_before_compute (s : SoloLayout) :
  wf s = true ->
  get_key_ready s = false ->
  exists evs,
    get_key s = (Raised (NameError "wrong_secret"), log evs s)
    /\ forall a b, ~ In (EvComputePrivatekey a b) evs.
Proof.
  intros Hwf Hready.
  unfold get_key, get_key_ready in *.
  unfold bind at 1, get at 1.
  destruct (number_solo s =? 1)%nat eqn:Hn; [|discriminate].
  destruct (wf_single _ Hwf Hn) as [solo Hs]. rewrite Hs in *.
  cbn in Hready. rewrite andb_true_r in Hready.
  unfold bind at 1. unfold bind at 1. unfold solos_item at 1, bind at 1, get at 1.
  rewrite Hs. cbn [nth_error ret].
  unfold bind at 1. cbn [text String.eqb Ascii.eqb Bool.eqb ret].
  unfold bind at 1. unfold solos_item at 1, bind at 1, get at 1.
  rewrite Hs. cbn [nth_error ret].
  unfold bind at 1. cbn [text String.eqb Ascii.eqb Bool.eqb ret].
  unfold bind at 1. rewrite get_key_strip_eq.
  destruct (checksum_ok (secret1 solo)).
  - cbn in Hready. unfold bind at 1. rewrite get_key_strip_eq, Hready.
    rewrite log_log. eexists. split; [reflexivity|].
    intros a b. rewrite in_app_iff.
    pose proof (verify_events_no_compute (secret1 solo) a b).
    cbn. intuition discriminate.
  - eexists. split; [reflexivity|].
    intros a b. cbn. intuition discriminate.
Qed.







Lemma shares_of_texts (field : Solo -> string) (l : list Solo) :
  map snd (shares_of field l) = map field l.
Proof. unfold shares_of. rewrite map_map. reflexivity. Qed.

(** The two secrets [get_key] derives the key from, spelled out. *)
Lemma derived_secrets_single (s : SoloLayout) (solo : Solo) :
  number_solo s = 1%nat ->
  solos s = [solo] ->
  derived_secrets s =
  (if (String.length (secret1 solo) =? 30)%nat
   then slice_to 29 (secret1 solo) else secret1 solo,
   if (String.length (secret2 solo) =? 30)%nat
   then slice_to 29 (secret2 solo) else secret2 solo).
Proof.
  intros Hn Hs. unfold derived_secrets, strip. rewrite Hn, Hs. reflexivity.
Qed.

Lemma derived_secrets_several (s : SoloLayout) :
  number_solo s <> 1%nat ->
  derived_secrets s =
  (reconstruct (shares_of secret1 (solos s)) 28,
   reconstruct (shares_of secret2 (solos s)) 14).
Proof.
  intros Hn. unfold derived_secrets. apply Nat.eqb_neq in Hn. now rewrite Hn.
Qed.

Lemma get_key_events_compute (s : SoloLayout) :
  In (EvComputePrivatekey (fst (derived_secrets s)) (snd (derived_secrets s)))
     (get_key_events s).
Proof. unfold get_key_events. rewrite in_app_iff. right. now left. Qed.

End Proofs.

(** The alphabet test refuses a string as soon as one character is
    outside the alphabet. *)
Lemma is_base58_alphabet_rejects (t : string) (c : ascii) :
  In c (list_ascii_of_string t) ->
  in_b58chars c = false ->
  is_base58_alphabet t = false.
Proof.
  intros Hin Hc. unfold is_base58_alphabet.
  destruct (forallb in_b58chars (list_ascii_of_string t)) eqn:E; [|reflexivity].
  rewrite forallb_forall in E. rewrite (E c Hin) in Hc. discriminate.
Qed.

(** * The properties of the layout *)

Local Open Scope list_scope.

(** C1. Whenever [get_key] reaches the recomputation of the key, the key
    it compares is [compute_privatekey_bitcoin] of the secrets entered: with
    one Solo the two texts, cut to 29 characters when they have 30; with
    several Solos the two results of [reconstruct] on the pairs
    [(currentIndex()+1, text())] of the Solos, in their order.  [get_key] stores that key and returns it
    when [address_from_private_key] of it is exactly the entered address,
    and [None] for any other address; the comparison itself never raises.
    Run after valid secrets and a valid address, [check_key] then signals
    acceptance in the first case and shows the address-mismatch error,
    without leaving the loop, in the second. *)
Theorem get_key_exact_address_match {X : Externals} (s : SoloLayout) :
  wf s = true ->
  get_key_ready s = true ->
  exists (a b k : string) (r : option string) (s' : SoloLayout)
         (before : list Event),
    @call _ unit get_key s = (Next r, s')
    /\ k = compute_privatekey_bitcoin a b
    /\ (number_solo s = 1%nat ->
        exists solo,
          solos s = [solo]
          /\ a = (if (String.length (secret1 solo) =? 30)%nat
                  then slice_to 29 (secret1 solo) else secret1 solo)
          /\ b = (if (String.length (secret2 solo) =? 30)%nat
                  then slice_to 29 (secret2 solo) else secret2 solo))
    /\ (number_solo s <> 1%nat ->
        exists sh1 sh2,
          a = reconstruct sh1 28
          /\ b = reconstruct sh2 14
          /\ Forall2 (numbered secret1) sh1 (solos s)
          /\ Forall2 (numbered secret2) sh2 (solos s))
    /\ In (EvComputePrivatekey a b) before
    /\ key s' = Some k
    /\ trace s' = before ++ [EvAddressFromPrivateKey k]
    /\ (address_from_private_key k = address s -> r = Some k)
    /\ (address_from_private_key k <> address s -> r = None)
    /\ (forallb solo_ok (solos s) = true ->
        is_address (address s) = true ->
        exists (s2 : SoloLayout) (evs : list Event),
          @call unit unit check_key s = (Next tt, s2)
          /\ trace s2 = trace s ++ evs
          /\ In (EvComputePrivatekey a b) evs
          /\ In (EvAddressFromPrivateKey k) evs
          /\ (address_from_private_key k = address s ->
              exists evs', evs = evs' ++ [EvLoopExit 2])
          /\ (address_from_private_key k <> address s ->
              (exists evs', evs = evs' ++ [EvShowError mismatch_msg])
              /\ forall c, ~ In (EvLoopExit c) evs)).
Proof.
  intros Hwf Hready.
  exists (fst (derived_secrets s)), (snd (derived_secrets s)), (derived_key s),
    (get_key_result s),
    (set_key (Some (derived_key s)) (log (get_key_events s) s)).
  exists (trace s ++ removelast (get_key_events s)).
  assert (get_key_events s =
          removelast (get_key_events s) ++ [EvAddressFromPrivateKey (derived_key s)])
    as Hlast.
  { unfold get_key_events at 1 2.
    change [EvComputePrivatekey (fst (derived_secrets s)) (snd (derived_secrets s));
            EvAddressFromPrivateKey (derived_key s)]
      with ([EvComputePrivatekey (fst (derived_secrets s)) (snd (derived_secrets s))]
            ++ [EvAddressFromPrivateKey (derived_key s)]).
    rewrite app_assoc. rewrite removelast_last. reflexivity. }
  assert (In (EvComputePrivatekey (fst (derived_secrets s)) (snd (derived_secrets s)))
             (removelast (get_key_events s))) as Hcomp.
  { unfold get_key_events.
    change [EvComputePrivatekey (fst (derived_secrets s)) (snd (derived_secrets s));
            EvAddressFromPrivateKey (derived_key s)]
      with ([EvComputePrivatekey (fst (derived_secrets s)) (snd (derived_secrets s))]
            ++ [EvAddressFromPrivateKey (derived_key s)]).
    rewrite app_assoc, removelast_last, in_app_iff. right. now left. }
  unfold call. rewrite (get_key_eq _ Hwf Hready).
  split; [reflexivity|]. split; [reflexivity|].
  split.
  { intros Hn.
    assert ((number_solo s =? 1)%nat = true) as Hb by now rewrite Hn.
    destruct (wf_single _ Hwf Hb) as [solo Hs]. exists solo.
    rewrite (derived_secrets_single s solo Hn Hs). cbn [fst snd]. split; [exact Hs|]. split; reflexivity. }
  split.
  { intros Hn. rewrite (derived_secrets_several s Hn). cbn [fst snd].
    assert ((number_solo s =? 1)%nat = false) as Hb by now apply Nat.eqb_neq.
    pose proof (wf_several _ Hwf Hb) as Hlt.
    exists (shares_of secret1 (solos s)), (shares_of secret2 (solos s)).
    split; [reflexivity|]. split; [reflexivity|].
    split; apply (shares_of_numbered (number_solo s)); auto using wf_solos. }
  split; [apply in_app_iff; now right|].
  split; [reflexivity|].
  split.
  { cbn [trace set_key log]. rewrite Hlast at 1. now rewrite app_assoc. }
  unfold get_key_result.
  split; [intros E; now rewrite (proj2 (String.eqb_eq _ _) E)|].
  split; [intros E; now rewrite (proj2 (String.eqb_neq _ _) E)|].
  intros Hok Haddr.
  pose proof (check_key_decided _ Hwf Hok Haddr) as Hck.
  unfold call, get_key_result in Hck. unfold call.
  assert (In (EvComputePrivatekey (fst (derived_secrets s)) (snd (derived_secrets s)))
             (get_key_events s)) as Hc1 by apply get_key_events_compute.
  assert (In (EvAddressFromPrivateKey (derived_key s)) (get_key_events s)) as Hc2.
  { rewrite Hlast, in_app_iff. right. now left. }
  destruct (address_from_private_key (derived_key s) =? address s)%string eqn:E.
  - eexists. eexists. split; [exact Hck|]. split; [reflexivity|].
    split; [rewrite !in_app_iff; auto|].
    split; [rewrite !in_app_iff; auto|].
    split.
    + intros _. eexists. rewrite !app_assoc. reflexivity.
    + intros Hne. apply String.eqb_eq in E. contradiction.
  - eexists. eexists. split; [exact Hck|]. split; [reflexivity|].
    split; [rewrite !in_app_iff; auto|].
    split; [rewrite !in_app_iff; auto|].
    split.
    + intros Heq. apply String.eqb_neq in E. contradiction.
    + intros _. split.
      * eexists. rewrite !app_assoc. reflexivity.
      * intros c. unfold checked_events. rewrite !in_app_iff.
        pose proof (solo_events_no_exit (solos s) c).
        pose proof (get_key_events_no_exit s c).
        cbn. intuition discriminate.
Qed.

Lemma get_key_exact_address_match_witness :
  exists r s', @call _ unit (@get_key sample) single_bare = (Next r, s').
Proof.
  destruct (@get_key_exact_address_match sample single_bare eq_refl eq_refl)
    as (a & b & k & r & s' & before & H & _).
  exists r, s'. exact H.
Defined.

(** C2. The claim asks that no exception leaves [get_key]; the code does
    otherwise: with one Solo whose first secret has 30 characters and fails
    [verify_solo_check], [get_key] does not reach its [return None], it
    stops with a [NameError] on [wrong_secret], a name the module never
    defines, after the single call of [verify_solo_check]. *)
Theorem get_key_bad_checksum_raises {X : Externals}
        (s : SoloLayout) (solo : Solo) (rest : list Solo) :
  number_solo s = 1%nat ->
  solos s = solo :: rest ->
  String.length (secret1 solo) = 30%nat ->
  verify_solo_check (secret1 solo) = false ->
  get_key s =
  (Raised (NameError "wrong_secret"), log [EvVerifySoloCheck (secret1 solo)] s).
Proof.
  intros Hn Hs Hlen Hv.
  unfold get_key, bind at 1, get at 1. rewrite Hn. cbn [Nat.eqb].
  unfold bind at 1. unfold bind at 1. unfold solos_item at 1, bind at 1, get at 1.
  rewrite Hs. cbn [nth_error ret].
  unfold bind at 1. cbn [text String.eqb Ascii.eqb Bool.eqb ret].
  unfold bind at 1. unfold solos_item at 1, bind at 1, get at 1.
  rewrite Hs. cbn [nth_error ret].
  unfold bind at 1. cbn [text String.eqb Ascii.eqb Bool.eqb ret].
  unfold bind at 1. rewrite get_key_strip_eq.
  unfold checksum_ok. now rewrite Hlen, Hv.
Qed.

Lemma get_key_bad_checksum_raises_witness :
  @get_key sample single_bad30 =
  (Raised (NameError "wrong_secret"), log [EvVerifySoloCheck bad30] single_bad30).
Proof.
  exact (@get_key_bad_checksum_raises sample single_bad30
           (mkSolo None bad30 bare14) [] eq_refl eq_refl eq_refl eq_refl).
Defined.

(** C3, as stated, fails with several Solos: the 30 character secrets,
    whose checksums [check_key] has just verified, reach [reconstruct] with
    all their 30 characters. *)
Lemma multi_share_truncation_counterexample :
  ~ (forall shares size,
        In (EvReconstruct shares size)
           (trace (snd (@call unit unit (@check_key sample) pro_good30))) ->
        Forall (fun p => snd p = slice_to 29 good30) shares).
Proof.
  intros H.
  specialize (H [(1%Z, good30); (3%Z, good30)] 28%nat).
  assert (Forall (fun p : Z * string => snd p = slice_to 29 good30)
                 [(1%Z, good30); (3%Z, good30)]) as F.
  { apply H. vm_compute. tauto. }
  inversion F as [|? ? Hhd _]. vm_compute in Hhd. discriminate.
Qed.

(** C3, amended.  With one Solo, a 30 character secret whose checksum is
    verified is cut to its first 29 characters before the key is derived,
    and a secret of another length is used as entered.  With several Solos
    nothing is cut: [reconstruct] receives, Solo after Solo, the pair of
    the number of the Solo, [currentIndex()+1], and the text as entered, and
    the key is derived from its two results. *)
Theorem get_key_truncates_single_only {X : Externals} (s : SoloLayout) :
  wf s = true ->
  get_key_ready s = true ->
  exists (r : option string) (s' : SoloLayout) (evs : list Event),
    @call _ unit get_key s = (Next r, s')
    /\ trace s' = trace s ++ evs
    /\ (number_solo s = 1%nat ->
        exists solo a b,
          solos s = [solo]
          /\ In (EvComputePrivatekey a b) evs
          /\ Forall not_reconstruct evs
          /\ (String.length (secret1 solo) = 30%nat ->
              a = slice_to 29 (secret1 solo) /\ String.length a = 29%nat)
          /\ (String.length (secret1 solo) <> 30%nat -> a = secret1 solo)
          /\ (String.length (secret2 solo) = 30%nat ->
              b = slice_to 29 (secret2 solo) /\ String.length b = 29%nat)
          /\ (String.length (secret2 solo) <> 30%nat -> b = secret2 solo))
    /\ (number_solo s <> 1%nat ->
        exists sh1 sh2 rest,
          evs = EvReconstruct sh1 28 :: EvReconstruct sh2 14 :: rest
          /\ Forall not_reconstruct rest
          /\ map snd sh1 = map secret1 (solos s)
          /\ map snd sh2 = map secret2 (solos s)
          /\ Forall2 (numbered secret1) sh1 (solos s)
          /\ Forall2 (numbered secret2) sh2 (solos s)
          /\ In (EvComputePrivatekey (reconstruct sh1 28) (reconstruct sh2 14)) rest).
Proof.
  intros Hwf Hready.
  exists (get_key_result s),
    (set_key (Some (derived_key s)) (log (get_key_events s) s)),
    (get_key_events s).
  unfold call. rewrite (get_key_eq _ Hwf Hready).
  split; [reflexivity|]. split; [reflexivity|].
  unfold get_key_events, derived_key, derived_secrets.
  split.
  - intros Hn. rewrite Hn. cbn [Nat.eqb].
    assert ((number_solo s =? 1)%nat = true) as Hb by now rewrite Hn.
    destruct (wf_single _ Hwf Hb) as [solo Hs]. rewrite Hs.
    exists solo, (strip (secret1 solo)), (strip (secret2 solo)).
    split; [reflexivity|]. cbn [fst snd].
    split; [rewrite !in_app_iff; cbn; auto|].
    split.
    { rewrite !Forall_app. repeat split;
        try apply verify_events_not_reconstruct; repeat constructor. }
    split; [apply strip_30|]. split; [apply strip_other|].
    split; [apply strip_30 | apply strip_other].
  - intros Hn. apply Nat.eqb_neq in Hn. rewrite Hn.
    pose proof (wf_several _ Hwf Hn) as Hlt.
    pose proof (wf_solos _ Hwf) as Hall.
    do 3 eexists. split; [reflexivity|].
    split; [repeat constructor|].
    split; [apply shares_of_texts|]. split; [apply shares_of_texts|].
    split; [exact (shares_of_numbered _ secret1 _ Hlt Hall)|].
    split; [exact (shares_of_numbered _ secret2 _ Hlt Hall)|].
    left. reflexivity.
Qed.

Lemma get_key_truncates_single_only_witness :
  exists r s', @call _ unit (@get_key sample) single_good30 = (Next r, s').
Proof.
  destruct (@get_key_truncates_single_only sample single_good30 eq_refl eq_refl)
    as (r & s' & evs & H & _).
  exists r, s'. exact H.
Defined.

(** C4, as stated, fails: after an accepted attempt the field [key] of the
    layout holds the private key that was recomputed, and so it does after
    an attempt refused for its address. *)
Lemma key_retained_counterexample :
  let accepted := snd (@call unit unit (@check_key sample) single_bare) in
  let refused := snd (@call unit unit (@check_key sample) single_other_address) in
  (In (EvLoopExit 2) (trace accepted)
   /\ key accepted = Some (bare28 ++ bare14)%string
   /\ In (EvAddressFromPrivateKey (bare28 ++ bare14)%string) (trace accepted))
  /\ (In (EvShowError mismatch_msg) (trace refused)
      /\ key refused = Some (bare28 ++ bare14)%string
      /\ In (EvAddressFromPrivateKey (bare28 ++ bare14)%string) (trace refused)).
Proof.
  vm_compute. repeat split; tauto.
Qed.

(** C4, amended.  [get_key] stores the recomputed private key in the field
    [key] of the layout and leaves it there, whether it returns the key or
    [None]; when it raises before the recomputation the field is untouched.
    After [check_key] the field holds the recomputed key whenever every
    secret and the address passed, so that [get_key] was reached, and is
    untouched whenever a secret or the address was refused before. *)
Theorem key_retained_after_get_key {X : Externals} (s : SoloLayout) :
  wf s = true ->
  (get_key_ready s = true ->
   exists (a b : string) (r : option string) (s' : SoloLayout)
          (evs : list Event),
     @call _ unit get_key s = (Next r, s')
     /\ trace s' = trace s ++ evs
     /\ In (EvComputePrivatekey a b) evs
     /\ key s' = Some (compute_privatekey_bitcoin a b)
     /\ (r = Some (compute_privatekey_bitcoin a b) \/ r = None))
  /\ (get_key_ready s = false ->
      exists (e : Exn) (s' : SoloLayout) (evs : list Event),
        @call _ unit get_key s = (Raised e, s')
        /\ trace s' = trace s ++ evs
        /\ key s' = key s
        /\ forall a b, ~ In (EvComputePrivatekey a b) evs)
  /\ (forallb solo_ok (solos s) = true ->
      is_address (address s) = true ->
      exists (a b : string) (s2 : SoloLayout) (evs : list Event),
        @call unit unit check_key s = (Next tt, s2)
        /\ trace s2 = trace s ++ evs
        /\ In (EvComputePrivatekey a b) evs
        /\ key s2 = Some (compute_privatekey_bitcoin a b)
        /\ (get_key_ready s = true
            /\ key s2 = key (snd (@call _ unit get_key s))))
  /\ (forallb solo_ok (solos s) && is_address (address s) = false ->
      exists (s2 : SoloLayout) (evs : list Event),
        @call unit unit check_key s = (Next tt, s2)
        /\ trace s2 = trace s ++ evs
        /\ key s2 = key s
        /\ forall a b, ~ In (EvComputePrivatekey a b) evs).
Proof.
  intros Hwf.
  split; [|split; [|split]].
  - intros Hready.
    exists (fst (derived_secrets s)), (snd (derived_secrets s)), (get_key_result s),
      (set_key (Some (derived_key s)) (log (get_key_events s) s)),
      (get_key_events s).
    unfold call. rewrite (get_key_eq _ Hwf Hready).
    split; [reflexivity|]. split; [reflexivity|].
    split; [apply get_key_events_compute|].
    split; [reflexivity|].
    unfold get_key_result, derived_key. destruct (_ =? _)%string; auto.
  - intros Hready.
    destruct (get_key_raises_before_compute _ Hwf Hready) as (evs & Hraise & Hno).
    exists (NameError "wrong_secret"), (log evs s), evs.
    unfold call. rewrite Hraise.
    split; [reflexivity|]. split; [reflexivity|]. split; [reflexivity|].
    exact Hno.
  - intros Hok Haddr.
    assert (get_key_ready s = true) as Hready.
    { unfold get_key_ready. destruct (number_solo s =? 1)%nat; [|reflexivity].
      now apply solo_ok_ready. }
    exists (fst (derived_secrets s)), (snd (derived_secrets s)).
    rewrite (check_key_decided _ Hwf Hok Haddr).
    unfold call. rewrite (get_key_eq _ Hwf Hready). cbn [snd].
    destruct (get_key_result s).
    + eexists. eexists. split; [reflexivity|]. split; [reflexivity|].
      split.
      { rewrite !in_app_iff. right. left. apply get_key_events_compute. }
      split; [reflexivity|]. split; [exact Hready | reflexivity].
    + eexists. eexists. split; [reflexivity|]. split; [reflexivity|].
      split.
      { rewrite !in_app_iff. right. left. apply get_key_events_compute. }
      split; [reflexivity|]. split; [exact Hready | reflexivity].
  - intros H. apply andb_false_iff in H.
    destruct (forallb solo_ok (solos s)) eqn:Hok.
    + destruct H as [H|H]; [discriminate|].
      rewrite (check_key_invalid_address _ Hwf Hok H).
      eexists. eexists. split; [reflexivity|]. split; [reflexivity|].
      split; [reflexivity|].
      intros a b. unfold checked_events. rewrite !in_app_iff.
      intros [[Hin|Hin]|Hin].
      * exact (solo_events_no_compute _ _ _ Hin).
      * destruct Hin as [Hin|[]]; discriminate.
      * destruct Hin as [Hin|[]]; discriminate.
    + destruct (first_refused _ Hok) as (pre & solo & post & Hs & Hpre & Hbad).
      rewrite (check_key_refused _ _ _ _ Hwf Hs Hpre Hbad).
      eexists. eexists. split; [reflexivity|]. split; [reflexivity|].
      split; [reflexivity|].
      intros a b. rewrite in_app_iff. intros [Hin|Hin].
      * exact (solo_events_no_compute _ _ _ Hin).
      * exact (refusal_no_compute _ _ _ _ Hin).
Qed.

Lemma key_retained_after_get_key_witness :
  exists (s2 : SoloLayout) (evs : list Event),
    @call unit unit (@check_key sample) single_bad30 = (Next tt, s2)
    /\ trace s2 = trace single_bad30 ++ evs
    /\ key s2 = key single_bad30
    /\ forall a b, ~ In (EvComputePrivatekey a b) evs.
Proof.
  exact (proj2 (proj2 (proj2
           (@key_retained_after_get_key sample single_bad30 eq_refl))) eq_refl).
Defined.

(** C5. For each of the two secrets of an entry, the size test of
    [check_key] refuses exactly when the length of the text is neither the
    bare length of the secret (28 for secret 1, 14 for secret 2) nor 30, and
    lets every other text through without a trace; the answer does not
    depend on the layout nor on the number of Solos.  For the first entry
    with a refused secret, [check_key] then shows the wrong-size message,
    which names the secret and the two lengths, and returns. *)
Theorem check_key_size_rule {X : Externals}
        (s : SoloLayout) (pre post : list Solo) (solo : Solo) :
  wf s = true ->
  solos s = pre ++ solo :: post ->
  forallb solo_ok pre = true ->
  let sn := solonum (number_solo s) solo in
  (forall s0 sn0,
      fst (check_key_size solo "1" sn0 28 s0) = Returned tt <->
      (String.length (secret1 solo) <> 28%nat /\ String.length (secret1 solo) <> 30%nat))
  /\ (forall s0 sn0,
         fst (check_key_size solo "2" sn0 14 s0) = Returned tt <->
         (String.length (secret2 solo) <> 14%nat /\ String.length (secret2 solo) <> 30%nat))
  /\ (forall s0 sn0,
         String.length (secret1 solo) = 28%nat \/ String.length (secret1 solo) = 30%nat ->
         check_key_size solo "1" sn0 28 s0 = (Next tt, s0))
  /\ (forall s0 sn0,
         String.length (secret2 solo) = 14%nat \/ String.length (secret2 solo) = 30%nat ->
         check_key_size solo "2" sn0 14 s0 = (Next tt, s0))
  /\ (String.length (secret1 solo) <> 28%nat ->
      String.length (secret1 solo) <> 30%nat ->
      @call unit unit check_key s =
      (Next tt,
       log (flat_map solo_events pre ++ [EvShowError (wrong_size_msg "1" sn 28)]) s))
  /\ (secret_ok 28 (secret1 solo) = true ->
      String.length (secret2 solo) <> 14%nat ->
      String.length (secret2 solo) <> 30%nat ->
      @call unit unit check_key s =
      (Next tt,
       log (flat_map solo_events pre ++ verify_events (secret1 solo)
              ++ [EvShowError (wrong_size_msg "2" sn 14)]) s))
  /\ wrong_size_msg "1" sn 28 = ("secret 1" ++ sn ++ " should be of size 28 or 30")%string
  /\ wrong_size_msg "2" sn 14 = ("secret 2" ++ sn ++ " should be of size 14 or 30")%string.
Proof.
  intros Hwf Hs Hpre sn.
  assert (forall n t, size_ok n t = false <->
                      (String.length t <> n /\ String.length t <> 30%nat)) as Hsize.
  { intros n t. unfold size_ok. rewrite orb_false_iff, !Nat.eqb_neq. tauto. }
  assert (forall n t, String.length t = n \/ String.length t = 30%nat ->
                      size_ok n t = true) as Hsize'.
  { intros n t. unfold size_ok. rewrite orb_true_iff, !Nat.eqb_eq. tauto. }
  split; [|split; [|split; [|split; [|split; [|split; [|split]]]]]].
  - intros s0 sn0. rewrite check_key_size_1, <- Hsize.
    destruct (size_ok 28 (secret1 solo)); cbn; split; congruence.
  - intros s0 sn0. rewrite check_key_size_2, <- Hsize.
    destruct (size_ok 14 (secret2 solo)); cbn; split; congruence.
  - intros s0 sn0 H. now rewrite check_key_size_1, (Hsize' _ _ H).
  - intros s0 sn0 H. now rewrite check_key_size_2, (Hsize' _ _ H).
  - intros H1 H2.
    assert (size_ok 28 (secret1 solo) = false) as E by (apply Hsize; auto).
    rewrite (check_key_refused s pre post solo Hwf Hs Hpre).
    + unfold refusal, refusal_1, secret_ok. now rewrite E.
    + unfold solo_ok, secret_ok. now rewrite E.
  - intros Hok1 H1 H2.
    assert (size_ok 14 (secret2 solo) = false) as E by (apply Hsize; auto).
    rewrite (check_key_refused s pre post solo Hwf Hs Hpre).
    + unfold refusal, refusal_2. now rewrite Hok1, E.
    + unfold solo_ok. rewrite Hok1. unfold secret_ok. now rewrite E.
  - reflexivity.
  - reflexivity.
Qed.

Lemma check_key_size_rule_witness :
  @call unit unit (@check_key sample) pro_short =
  (Next tt,
   log [EvVerifySoloCheck good30;
        EvShowError "secret 1 of the solo 2 should be of size 28 or 30"] pro_short).
Proof.
  refine (proj1 (proj2 (proj2 (proj2 (proj2
            (@check_key_size_rule sample pro_short
               [mkSolo (Some 0%Z) good30 bare14] []
               (mkSolo (Some 1%Z) "ABCDE" bare14)
               eq_refl eq_refl eq_refl))))) _ _);
    cbn; lia.
Defined.



(** C7. Along every session of the layout, started by [__init__] and driven
    by edits and clicks, no call of [reconstruct] carries the same Solo
    number twice, and no exception ends the session.  Whenever, with
    several Solos, two entries show the same number, the Next button is
    disabled and a click on it runs nothing: the set of shares is refused
    before [check_key], hence before [reconstruct]. *)
Theorem duplicate_index_never_reconstructed {X : Externals}
        (pro : bool) (evs : list GuiEvent) :
  let s' := snd (gui_run evs (init pro)) in
  fst (gui_run evs (init pro)) = Next tt
  /\ Forall reconstruct_distinct (trace s')
  /\ ((1 < number_solo s')%nat ->
      ~ NoDup (indexes_of (solos s')) ->
      next_enabled s' = false /\ gui_step ClickNext s' = (Next tt, s')).
Proof.
  destruct (gui_run_inv evs (init pro) (init_inv pro)) as (s1 & Hrun & Hinv).
  rewrite Hrun. cbn [fst snd].
  destruct Hinv as (Hwf & Hen & _ & _ & Ht).
  split; [reflexivity|]. split; [exact Ht|].
  intros Hlt Hdup.
  assert (next_enabled s1 = false) as Hoff.
  { destruct (next_enabled s1); [|reflexivity]. exfalso. apply Hdup.
    specialize (Hen eq_refl). unfold edit_ok in Hen.
    apply andb_prop in Hen as [_ Hen].
    apply Nat.ltb_lt in Hlt. rewrite Hlt in Hen.
    apply (distinct_from_NoDup _ []); [exact Hen | constructor]. }
  split; [exact Hoff|].
  unfold gui_step, bind, get. now rewrite Hoff.
Qed.

Lemma duplicate_index_never_reconstructed_witness :
  next_enabled
    (snd (@gui_run sample
            [TypeSecret1 0 good30; TypeSecret2 0 good30;
             TypeSecret1 1 good30; TypeSecret2 1 good30; SelectSolo 1 0%Z]
            (init true))) = false.
Proof.
  refine (proj1 (proj2 (proj2
            (@duplicate_index_never_reconstructed sample true
               [TypeSecret1 0 good30; TypeSecret2 0 good30;
                TypeSecret1 1 good30; TypeSecret2 1 good30; SelectSolo 1 0%Z]))
            _ _)).
  - vm_compute. lia.
  - vm_compute. intros H. inversion H as [|? ? Hin _]. apply Hin. now left.
Defined.

(** C8, as stated, fails: with two Solos and bare secrets, the shares that
    [check_key] lets through to [reconstruct] have 28 and 14 characters,
    not 29. *)
Lemma multi_share_29_counterexample :
  ~ (forall shares size,
        In (EvReconstruct shares size)
           (trace (snd (@call unit unit (@check_key sample) pro_bare))) ->
        Forall (fun p => String.length (snd p) = 29%nat) shares).
Proof.
  intros H.
  specialize (H [(1%Z, bare28); (2%Z, bare28)] 28%nat).
  assert (Forall (fun p : Z * string => String.length (snd p) = 29%nat)
                 [(1%Z, bare28); (2%Z, bare28)]) as F.
  { apply H. vm_compute. tauto. }
  inversion F as [|? ? Hhd _]. vm_compute in Hhd. discriminate.
Qed.

(** C8, amended.  With several Solos, [check_key] calls [reconstruct] only
    after every secret and the address have passed, once for the first
    secrets with size 28 and once for the second ones with size 14; each
    share is the text as entered, of the bare length of its secret or of
    30 characters, and [verify_solo_check] holds of the 30 character
    ones. *)
Theorem multi_shares_as_entered {X : Externals} (s : SoloLayout) :
  wf s = true ->
  number_solo s <> 1%nat ->
  exists (s' : SoloLayout) (evs : list Event),
    @call unit unit check_key s = (Next tt, s')
    /\ trace s' = trace s ++ evs
    /\ (forall shares size,
           In (EvReconstruct shares size) evs ->
           forallb solo_ok (solos s) = true
           /\ is_address (address s) = true
           /\ ((size = 28%nat /\ map snd shares = map secret1 (solos s))
               \/ (size = 14%nat /\ map snd shares = map secret2 (solos s)))
           /\ Forall (fun t => (String.length t = size \/ String.length t = 30%nat)
                               /\ (String.length t = 30%nat ->
                                   verify_solo_check t = true))
                     (map snd shares))
    /\ (forallb solo_ok (solos s) = true ->
        is_address (address s) = true ->
        exists sh1 sh2,
          In (EvReconstruct sh1 28) evs /\ In (EvReconstruct sh2 14) evs).
Proof.
  intros Hwf Hn. apply Nat.eqb_neq in Hn.
  assert (forall n t, secret_ok n t = true ->
            (String.length t = n \/ String.length t = 30%nat)
            /\ (String.length t = 30%nat -> verify_solo_check t = true)) as Hsec.
  { intros n t H. unfold secret_ok, size_ok, checksum_ok in H.
    apply andb_prop in H as [H1 H2]. apply orb_prop in H1.
    rewrite !Nat.eqb_eq in H1. split; [exact H1|].
    intros E. now rewrite E in H2. }
  destruct (forallb solo_ok (solos s)) eqn:Hok.
  - destruct (is_address (address s)) eqn:Haddr.
    + rewrite (check_key_decided _ Hwf Hok Haddr).
      exists (match get_key_result s with
              | Some _ =>
                  rewired (set_key (Some (derived_key s))
                    (log (checked_events s ++ get_key_events s ++ [EvLoopExit 2]) s))
              | None =>
                  set_key (Some (derived_key s))
                    (log (checked_events s ++ get_key_events s
                            ++ [EvShowError mismatch_msg]) s)
              end).
      exists (checked_events s ++ get_key_events s ++
              [match get_key_result s with
               | Some _ => EvLoopExit 2
               | None => EvShowError mismatch_msg
               end]).
      split; [reflexivity|].
      split; [destruct (get_key_result s); reflexivity|].
      unfold checked_events, get_key_events. rewrite Hn.
      split.
      * intros shares size Hin.
        split; [reflexivity|]. split; [reflexivity|].
        rewrite !in_app_iff in Hin.
        destruct Hin as [[Hin|Hin]|[Hin|Hin]].
        -- exfalso. exact (not_reconstruct_In _ _ _ (solo_events_not_reconstruct _) Hin).
        -- cbn in Hin. intuition discriminate.
        -- cbn in Hin.
           destruct Hin as [[E|[E|[]]]|[E|[E|[]]]]; try discriminate;
             injection E as <- <-; unfold shares_of; rewrite map_map; cbn [snd].
           ++ split; [left; split; reflexivity|].
              rewrite Forall_map, Forall_forall. intros solo Hin.
              pose proof (solo_ok_In _ _ Hok Hin) as Hso.
              unfold solo_ok in Hso. apply andb_prop in Hso as [Hso _].
              now apply Hsec.
           ++ split; [right; split; reflexivity|].
              rewrite Forall_map, Forall_forall. intros solo Hin.
              pose proof (solo_ok_In _ _ Hok Hin) as Hso.
              unfold solo_ok in Hso. apply andb_prop in Hso as [_ Hso].
              now apply Hsec.
        -- cbn in Hin. destruct (get_key_result s); intuition discriminate.
      * intros _ _. do 2 eexists. rewrite !in_app_iff. cbn. auto 8.
    + rewrite (check_key_invalid_address _ Hwf Hok Haddr).
      do 2 eexists. split; [reflexivity|]. split; [reflexivity|].
      split; [|discriminate].
      intros shares size Hin. exfalso. unfold checked_events in Hin.
      rewrite !in_app_iff in Hin. destruct Hin as [[Hin|Hin]|Hin].
      * exact (not_reconstruct_In _ _ _ (solo_events_not_reconstruct _) Hin).
      * cbn in Hin. intuition discriminate.
      * cbn in Hin. intuition discriminate.
  - destruct (first_refused _ Hok) as (pre & solo & post & Hs & Hpre & Hbad).
    rewrite (check_key_refused _ _ _ _ Hwf Hs Hpre Hbad).
    do 2 eexists. split; [reflexivity|]. split; [reflexivity|].
    split; [|discriminate].
    intros shares size Hin. exfalso.
    rewrite in_app_iff in Hin. destruct Hin as [Hin|Hin].
    + exact (not_reconstruct_In _ _ _ (solo_events_not_reconstruct _) Hin).
    + exact (not_reconstruct_In _ _ _ (refusal_not_reconstruct _ _) Hin).
Qed.

Lemma multi_shares_as_entered_witness :
  exists s' evs,
    @call unit unit (@check_key sample) pro_bare = (Next tt, s')
    /\ trace s' = trace pro_bare ++ evs.
Proof.
  assert (number_solo pro_bare <> 1%nat) as Hn by (cbn; lia).
  destruct (@multi_shares_as_entered sample pro_bare eq_refl Hn)
    as (s' & evs & H1 & H2 & _).
  exists s', evs. split; [exact H1 | exact H2].
Defined.

(** C9. [is_base58] being a test that refuses every string with a
    character outside the base-58 alphabet: along every session, whenever
    a secret of an entry holds such a character, the Next button is
    disabled and a click on it runs nothing, so that neither [check_key]
    nor the derivation of the key is reached with that input. *)
Theorem non_base58_secret_blocks_next {X : Externals}
        (pro : bool) (evs : list GuiEvent) (solo : Solo) (t : string) (c : ascii) :
  (forall t0 c0, In c0 (list_ascii_of_string t0) -> in_b58chars c0 = false ->
                 is_base58 t0 = false) ->
  let s' := snd (gui_run evs (init pro)) in
  In solo (solos s') ->
  t = secret1 solo \/ t = secret2 solo ->
  In c (list_ascii_of_string t) ->
  in_b58chars c = false ->
  fst (gui_run evs (init pro)) = Next tt
  /\ next_enabled s' = false
  /\ gui_step ClickNext s' = (Next tt, s').
Proof.
  intros Hb58.
  destruct (gui_run_inv evs (init pro) (init_inv pro)) as (s1 & Hrun & Hinv).
  rewrite Hrun. cbn [fst snd]. intros Hsolo Ht Hc Hout.
  destruct Hinv as (Hwf & Hen & _).
  split; [reflexivity|].
  assert (next_enabled s1 = false) as Hoff.
  { destruct (next_enabled s1); [|reflexivity].
    specialize (Hen eq_refl). unfold edit_ok in Hen.
    apply andb_prop in Hen as [Hen _]. rewrite forallb_forall in Hen.
    specialize (Hen solo Hsolo). apply andb_prop in Hen as [H1 H2].
    pose proof (Hb58 t c Hc Hout) as Hrej.
    destruct Ht as [-> | ->]; congruence. }
  split; [exact Hoff|].
  unfold gui_step, bind, get. now rewrite Hoff.
Qed.

Lemma non_base58_secret_blocks_next_witness :
  next_enabled
    (snd (@gui_run sample
            [TypeSecret1 0 bare28; TypeSecret2 0 "abcdefghijkmn0"] (init false)))
  = false.
Proof.
  refine (proj1 (proj2
            (@non_base58_secret_blocks_next sample false
               [TypeSecret1 0 bare28; TypeSecret2 0 "abcdefghijkmn0"]
               (mkSolo None bare28 "abcdefghijkmn0") "abcdefghijkmn0" "0"%char
               is_base58_alphabet_rejects _ _ _ _))).
  - vm_compute. now left.
  - now right.
  - vm_compute. tauto.
  - reflexivity.
Defined.

(** C10. [check_key] always returns.  It calls [loop.exit(2)] exactly
    when every secret of every entry has passed the size and checksum
    tests, [is_address] holds of the entered address and [get_key] returns
    a key; the calls then come in that order, [loop.exit(2)] last, after
    [reset_buttons].  In every other case the last thing [check_key] does
    is to show an error: [loop.exit] is not called and the buttons are
    left as they were. *)
Theorem check_key_accepts_only_after_all_checks {X : Externals} (s : SoloLayout) :
  wf s = true ->
  exists (s' : SoloLayout) (evs : list Event),
    @call unit unit check_key s = (Next tt, s')
    /\ trace s' = trace s ++ evs
    /\ (In (EvLoopExit 2) evs <->
        (forallb solo_ok (solos s) = true
         /\ is_address (address s) = true
         /\ exists k,
             fst (@call _ unit get_key (log (checked_events s) s)) = Next (Some k)))
    /\ (In (EvLoopExit 2) evs ->
        evs = flat_map solo_events (solos s) ++ [EvIsAddress (address s)]
                ++ get_key_events s ++ [EvLoopExit 2]
        /\ next_clicked s' = [SlotExit 2]
        /\ back_clicked s' = [SlotExit 1])
    /\ (~ In (EvLoopExit 2) evs ->
        (exists before msg, evs = before ++ [EvShowError msg])
        /\ (forall c, ~ In (EvLoopExit c) evs)
        /\ next_clicked s' = next_clicked s
        /\ back_clicked s' = back_clicked s
        /\ next_enabled s' = next_enabled s).
Proof.
  intros Hwf.
  destruct (forallb solo_ok (solos s)) eqn:Hok.
  - assert (get_key_ready (log (checked_events s) s) = true) as Hready.
    { unfold get_key_ready. cbn [number_solo solos log].
      destruct (number_solo s =? 1)%nat; [|reflexivity]. now apply solo_ok_ready. }
    assert (@call _ unit get_key (log (checked_events s) s)
            = (Next (get_key_result s),
               set_key (Some (derived_key s))
                 (log (get_key_events s) (log (checked_events s) s)))) as Hgk.
    { unfold call.
      rewrite (get_key_eq (log (checked_events s) s) Hwf Hready). reflexivity. }
    destruct (is_address (address s)) eqn:Haddr.
    + rewrite (check_key_decided _ Hwf Hok Haddr). rewrite Hgk. cbn [fst].
      destruct (get_key_result s) as [k|] eqn:Hres.
      * do 2 eexists. split; [reflexivity|]. split; [reflexivity|].
        assert (In (EvLoopExit 2)
                   (checked_events s ++ get_key_events s ++ [EvLoopExit 2])) as Hin
          by (rewrite !in_app_iff; cbn; auto).
        split; [split; [intros _; repeat split; eauto | intros _; exact Hin]|].
        split.
        -- intros _. unfold checked_events. rewrite <- app_assoc.
           repeat split; reflexivity.
        -- intros Hnot. contradiction.
      * do 2 eexists. split; [reflexivity|]. split; [reflexivity|].
        assert (forall c, ~ In (EvLoopExit c)
                   (checked_events s ++ get_key_events s ++ [EvShowError mismatch_msg]))
          as Hno.
        { intros c. unfold checked_events. rewrite !in_app_iff.
          pose proof (solo_events_no_exit (solos s) c).
          pose proof (get_key_events_no_exit s c).
          cbn. intuition discriminate. }
        split.
        { split; [intros Hin; exfalso; exact (Hno _ Hin)|].
          intros (_ & _ & k & Hk). discriminate. }
        split; [intros Hin; exfalso; exact (Hno _ Hin)|].
        intros _. split.
        { eexists. eexists. rewrite !app_assoc. reflexivity. }
        repeat split; auto.
    + rewrite (check_key_invalid_address _ Hwf Hok Haddr).
      do 2 eexists. split; [reflexivity|]. split; [reflexivity|].
      assert (forall c, ~ In (EvLoopExit c)
                 (checked_events s ++ [EvShowError invalid_address_msg])) as Hno.
      { intros c. unfold checked_events. rewrite !in_app_iff.
        pose proof (solo_events_no_exit (solos s) c).
        cbn. intuition discriminate. }
      split.
      { split; [intros Hin; exfalso; exact (Hno _ Hin)|].
        intros (_ & E & _). discriminate. }
      split; [intros Hin; exfalso; exact (Hno _ Hin)|].
      intros _. split; [eauto|]. repeat split; auto.
  - destruct (first_refused _ Hok) as (pre & solo & post & Hs & Hpre & Hbad).
    rewrite (check_key_refused _ _ _ _ Hwf Hs Hpre Hbad).
    do 2 eexists. split; [reflexivity|]. split; [reflexivity|].
    assert (forall c, ~ In (EvLoopExit c)
               (flat_map solo_events pre ++ refusal (number_solo s) solo)) as Hno.
    { intros c. rewrite in_app_iff.
      pose proof (solo_events_no_exit pre c).
      pose proof (refusal_no_exit (number_solo s) solo c). tauto. }
    split.
    { split; [intros Hin; exfalso; exact (Hno _ Hin)|].
      intros (E & _). discriminate. }
    split; [intros Hin; exfalso; exact (Hno _ Hin)|].
    intros _. split.
    { destruct (refusal_shows_error (number_solo s) solo) as (before & msg & ->).
      exists (flat_map solo_events pre ++ before), msg. now rewrite app_assoc. }
    repeat split; auto.
Qed.

Lemma check_key_accepts_only_after_all_checks_witness :
  exists s' evs,
    @call unit unit (@check_key sample) single_bare = (Next tt, s')
    /\ trace s' = trace single_bare ++ evs.
Proof.
  destruct (@check_key_accepts_only_after_all_checks sample single_bare eq_refl)
    as (s' & evs & H1 & H2 & _).
  exists s', evs. split; [exact H1 | exact H2].
Defined.

(** * The entry of a seed *)

Module SeedFacts.
Import Seed.
Import SeedTerms.

Lemma app_assoc_string (a b c : string) : ((a ++ b) ++ c = a ++ (b ++ c))%string.
Proof. induction a as [|x a IH]; cbn; [reflexivity | now rewrite IH]. Qed.

Lemma app_nil_r_string (a : string) : (a ++ EmptyString = a)%string.
Proof. induction a as [|x a IH]; cbn; [reflexivity | now rewrite IH]. Qed.

Lemma app_not_empty (a : string) (c : ascii) :
  (a ++ String c EmptyString)%string <> EmptyString.
Proof. destruct a; discriminate. Qed.

Lemma chars_app (a b : string) :
  list_ascii_of_string (a ++ b) = list_ascii_of_string a ++ list_ascii_of_string b.
Proof. induction a as [|x a IH]; cbn; [reflexivity | now rewrite IH]. Qed.

Lemma space_free_app (a b : string) :
  space_free a -> space_free b -> space_free (a ++ b).
Proof.
  intros Ha Hb c. rewrite chars_app, in_app_iff. intros [H|H]; auto.
Qed.

Lemma space_free_tail (c : ascii) (w : string) :
  space_free (String c w) -> is_space c = false /\ space_free w.
Proof.
  intros H. split.
  - apply H. now left.
  - intros x Hx. apply H. now right.
Qed.

(** Reading a word moves it to the word being read. *)
Lemma split_from_word (w cur rest : string) :
  space_free w ->
  split_from cur (w ++ rest) = split_from (cur ++ w) rest.
Proof.
  revert cur. induction w as [|c w IH]; intros cur Hw.
  - cbn. now rewrite app_nil_r_string.
  - apply space_free_tail in Hw as [Hc Hw]. cbn. rewrite Hc.
    rewrite (IH _ Hw), app_assoc_string. reflexivity.
Qed.

(** What [split] returns are words. *)
Lemma split_from_words (s cur : string) :
  space_free cur -> Forall word (split_from cur s).
Proof.
  revert cur. induction s as [|c s IH]; intros cur Hcur; cbn.
  - destruct cur; constructor; [|constructor]. split; [discriminate | exact Hcur].
  - destruct (is_space c) eqn:Hc.
    + assert (space_free EmptyString) as He by (intros x []).
      destruct cur; [now apply IH|].
      constructor; [|now apply IH]. split; [discriminate | exact Hcur].
    + apply IH. apply space_free_app; [exact Hcur|].
      intros x [<-|[]]. exact Hc.
Qed.

Lemma split_words (s : string) : Forall word (split s).
Proof. apply split_from_words. intros x []. Qed.

(** Joining words with one space and splitting again gives the words. *)
Lemma split_join (ws : list string) : Forall word ws -> split (join ws) = ws.
Proof.
  induction 1 as [|w ws [Hne Hw] Hws IH]; [reflexivity|].
  unfold split, join in *. cbn [String.concat].
  destruct ws as [|w2 ws].
  - pose proof (split_from_word w EmptyString EmptyString Hw) as E.
    rewrite app_nil_r_string in E. rewrite E. cbn.
    destruct w; [contradiction | reflexivity].
  - rewrite (split_from_word w _ _ Hw). cbn [append split_from].
    change (is_space " ") with true. cbn iota.
    destruct w; [contradiction|]. now rewrite IH.
Qed.

Lemma word_no_space (w : string) :
  word w -> forall c, In c (list_ascii_of_string w) -> Ascii.eqb c " " = false.
Proof.
  intros [_ Hw] c Hc. destruct (Ascii.eqb_spec c " ") as [->|]; [|reflexivity].
  specialize (Hw _ Hc). discriminate.
Qed.

Lemma split_on_from_piece (sep : ascii) (w cur rest : string) :
  (forall c, In c (list_ascii_of_string w) -> Ascii.eqb c sep = false) ->
  split_on_from sep cur (w ++ rest) = split_on_from sep (cur ++ w) rest.
Proof.
  revert cur. induction w as [|c w IH]; intros cur Hw.
  - cbn. now rewrite app_nil_r_string.
  - cbn. rewrite (Hw c) by now left.
    rewrite IH, app_assoc_string; [reflexivity|].
    intros x Hx. apply Hw. now right.
Qed.

(** Cutting the joined words at each space gives the words back, when
    there is one at least. *)
Lemma split_on_join (ws : list string) :
  Forall word ws -> ws <> [] -> split_on " " (join ws) = ws.
Proof.
  induction 1 as [|w ws Hw Hws IH]; [contradiction|]. intros _.
  unfold split_on, join in *. cbn [String.concat].
  pose proof (word_no_space _ Hw) as Hns.
  destruct ws as [|w2 ws].
  - pose proof (split_on_from_piece " " w EmptyString EmptyString Hns) as E.
    rewrite app_nil_r_string in E. rewrite E. reflexivity.
  - rewrite (split_on_from_piece _ w _ _ Hns). cbn [append split_on_from].
    change (Ascii.eqb " " " ") with true. cbn iota.
    rewrite IH by discriminate. reflexivity.
Qed.

Lemma blank_tail (c : ascii) (w : string) :
  blank (String c w) -> is_space c = true /\ blank w.
Proof.
  intros H. split.
  - apply H. now left.
  - intros x Hx. apply H. now right.
Qed.

Lemma split_from_blank (b cur : string) :
  blank b ->
  split_from cur b = match cur with EmptyString => [] | _ => [cur] end.
Proof.
  revert cur. induction b as [|c b IH]; intros cur Hb; [reflexivity|].
  apply blank_tail in Hb as [Hc Hb]. cbn. rewrite Hc.
  rewrite (IH EmptyString Hb). destruct cur; reflexivity.
Qed.

Lemma split_from_trailing (t b cur : string) :
  blank b -> split_from cur (t ++ b) = split_from cur t.
Proof.
  intros Hb. revert cur. induction t as [|c t IH]; intros cur.
  - cbn. now apply split_from_blank.
  - cbn. destruct (is_space c); [|apply IH].
    rewrite IH. reflexivity.
Qed.

Lemma split_from_leading (a t : string) :
  blank a -> split_from EmptyString (a ++ t) = split_from EmptyString t.
Proof.
  induction a as [|c a IH]; intros Ha; [reflexivity|].
  apply blank_tail in Ha as [Hc Ha]. cbn. rewrite Hc. now apply IH.
Qed.

(** [split] returns nothing exactly on a blank text. *)
Lemma split_from_nil (s cur : string) :
  split_from cur s = [] <-> cur = EmptyString /\ blank s.
Proof.
  revert cur. induction s as [|c s IH]; intros cur; cbn.
  - destruct cur; split; try discriminate.
    + intros _. split; [reflexivity | intros x []].
    + reflexivity.
    + intros [E _]. discriminate.
  - destruct (is_space c) eqn:Hc.
    + destruct cur.
      * rewrite IH. split; intros [E Hb]; split; auto.
        -- intros x [<-|Hx]; auto.
        -- intros x Hx. apply Hb. now right.
      * split; [discriminate | intros [E _]; discriminate].
    + rewrite IH. split.
      * intros [E _]. exfalso. exact (app_not_empty _ _ E).
      * intros [_ Hb]. specialize (Hb c (or_introl eq_refl)). congruence.
Qed.

Lemma join_empty (ws : list string) :
  Forall word ws -> join ws = EmptyString -> ws = [].
Proof.
  intros H. destruct H as [|w ws [Hne _] _]; [reflexivity|].
  unfold join. cbn [String.concat]. destruct w; [contradiction|].
  destruct ws; discriminate.
Qed.

End SeedFacts.

Import SeedTerms.
Import SeedFacts.

Lemma get_seed_pieces (l : Seed.SeedLayout) :
  Forall word (Seed.split (Seed.seed_e_text l))
  /\ Seed.split_on " " (Seed.get_seed l) =
     match Seed.split (Seed.seed_e_text l) with
     | [] => [EmptyString]
     | ws => ws
     end.
Proof.
  split; [apply split_words|].
  unfold Seed.get_seed.
  pose proof (split_words (Seed.seed_e_text l)) as Hw.
  destruct (Seed.split (Seed.seed_e_text l)) as [|w ws] eqn:E; [reflexivity|].
  apply split_on_join; [exact Hw | discriminate].
Qed.

Lemma get_seed_empty_blank (l : Seed.SeedLayout) :
  Seed.get_seed l = EmptyString <-> blank (Seed.seed_e_text l).
Proof.
  unfold Seed.get_seed. split.
  - intros E. apply join_empty in E; [|apply split_words].
    apply split_from_nil in E. tauto.
  - intros Hb. unfold Seed.split.
    now rewrite (proj2 (split_from_nil _ _) (conj eq_refl Hb)).
Qed.

(** X1. The seed [get_seed] returns is single-spaced: cut at every
    space, it gives back exactly the words of the text (one empty piece
    when the text has no word), and a word is never empty and holds no
    white space.  So the seed has no space at either end, no two spaces in
    a row, and no other white space than the space. *)
Theorem get_seed_single_spaced (l : Seed.SeedLayout) :
  Forall word (Seed.split (Seed.seed_e_text l))
  /\ Seed.split_on " " (Seed.get_seed l) =
     match Seed.split (Seed.seed_e_text l) with
     | [] => [EmptyString]
     | ws => ws
     end.
Proof. exact (get_seed_pieces l). Qed.

(** X2. [get_seed] keeps the words of the text, in their order, and is
    idempotent: a text that is already a seed returned by [get_seed] is
    returned unchanged. *)
Theorem get_seed_idempotent (l : Seed.SeedLayout) :
  Seed.split (Seed.get_seed l) = Seed.split (Seed.seed_e_text l)
  /\ Seed.get_seed (Seed.set_seed_e_text (Seed.get_seed l) l) = Seed.get_seed l.
Proof.
  assert (Seed.split (Seed.get_seed l) = Seed.split (Seed.seed_e_text l)) as E
    by (apply split_join, split_words).
  split; [exact E|].
  unfold Seed.get_seed at 1. cbn [Seed.seed_e_text Seed.set_seed_e_text].
  now rewrite E.
Qed.

(** X3. White space before and after the text does not count: the seed
    is that of the text without it. *)
Theorem get_seed_ignores_outer_blanks (l : Seed.SeedLayout) (a b : string) :
  blank a ->
  blank b ->
  Seed.get_seed (Seed.set_seed_e_text (a ++ Seed.seed_e_text l ++ b)%string l)
  = Seed.get_seed l.
Proof.
  intros Ha Hb. unfold Seed.get_seed, Seed.split.
  cbn [Seed.seed_e_text Seed.set_seed_e_text].
  now rewrite (split_from_leading _ _ Ha), (split_from_trailing _ _ _ Hb).
Qed.

Lemma get_seed_ignores_outer_blanks_witness :
  Seed.get_seed
    (Seed.mkSeed ("  " ++ "abandon  ability" ++ " ")%string true
                 Seed.truthy Seed.truthy false false [] [] EmptyString EmptyString
                 false)
  = "abandon ability".
Proof.
  refine (eq_trans
            (get_seed_ignores_outer_blanks
               (Seed.mkSeed "abandon  ability" true Seed.truthy Seed.truthy
                            false false [] [] EmptyString EmptyString false)
               "  " " " _ _) eq_refl);
    intros c H; cbn in H; intuition (subst; reflexivity).
Defined.

(** X4. The seed is empty exactly when the text is blank, that is empty
    or made of white space only. *)
Theorem get_seed_empty_iff_blank (l : Seed.SeedLayout) :
  Seed.get_seed l = EmptyString <-> blank (Seed.seed_e_text l).
Proof. exact (get_seed_empty_blank l). Qed.

Section SeedEdit.
Variable tr : string -> string.
Variable seed_type : string -> string.
Variable bip39_is_checksum_valid : string -> bool * bool.

Lemma seed_on_edit_words (ws : list string) (l : Seed.SeedLayout) :
  Seed.on_edit_words ws l =
  Seed.set_suggestions (forallb (fun w => Seed.mem w (Seed.wordlist l)) ws) l.
Proof.
  induction ws as [|w ws IH]; [reflexivity|].
  cbn [Seed.on_edit_words forallb].
  destruct (Seed.mem w (Seed.wordlist l)); cbn [negb andb]; [exact IH | reflexivity].
Qed.

Lemma mem_In (w : string) (l : list string) : Seed.mem w l = true <-> In w l.
Proof.
  unfold Seed.mem. rewrite existsb_exists. split.
  - intros (x & Hx & E). apply String.eqb_eq in E. now subst.
  - intros H. exists w. split; [exact H | apply String.eqb_refl].
Qed.

(** The pieces [on_edit] loops over are the words of the text but the
    last. *)
Lemma on_edit_pieces (l : Seed.SeedLayout) :
  removelast (Seed.split_on " " (Seed.get_seed l)) =
  removelast (Seed.split (Seed.seed_e_text l)).
Proof.
  rewrite (proj2 (get_seed_pieces l)).
  destruct (Seed.split (Seed.seed_e_text l)); reflexivity.
Qed.

(** What [on_edit] leaves of the layout. *)
Lemma seed_on_edit_eq (l : Seed.SeedLayout) :
  Seed.on_edit tr seed_type bip39_is_checksum_valid l =
  Seed.set_suggestions
    (forallb (fun w => Seed.mem w (Seed.wordlist l))
             (removelast (Seed.split (Seed.seed_e_text l))))
    (Seed.set_next_enabled (Seed.is_seed l (Seed.get_seed l))
       (Seed.set_seed_type_label
          (Seed.on_edit_label tr seed_type bip39_is_checksum_valid l (Seed.get_seed l))
          l)).
Proof.
  unfold Seed.on_edit at 1. rewrite seed_on_edit_words.
  cbn [Seed.wordlist Seed.set_next_enabled Seed.set_seed_type_label].
  match goal with
  | |- Seed.set_suggestions (forallb _ (removelast (Seed.split_on _ (Seed.get_seed ?x)))) _ = _ =>
      change (Seed.get_seed x) with (Seed.get_seed l)
  end.
  now rewrite on_edit_pieces.
Qed.

Lemma seed_on_edit_frame (l : Seed.SeedLayout) :
  let l' := Seed.on_edit tr seed_type bip39_is_checksum_valid l in
  (Seed.suggestions l' = true <->
   forall w, In w (removelast (Seed.split (Seed.seed_e_text l))) ->
             In w (Seed.wordlist l))
  /\ Seed.next_enabled l' = Seed.is_seed l (Seed.get_seed l)
  /\ Seed.seed_e_text l' = Seed.seed_e_text l
  /\ Seed.wordlist l' = Seed.wordlist l
  /\ Seed.is_bip39 l' = Seed.is_bip39 l
  /\ Seed.is_ext l' = Seed.is_ext l
  /\ Seed.seed_warning l' = Seed.seed_warning l.
Proof.
  intros l'. subst l'. rewrite seed_on_edit_eq.
  split; [|repeat split].
  cbn [Seed.suggestions Seed.set_suggestions]. rewrite forallb_forall.
  split; intros H w Hw; apply mem_In; auto.
Qed.

(** X5. After [on_edit], the suggestions of the text field are enabled
    exactly when every word of the text but the last is in the word list
    (always, then, for a text of one word or none); the Next button is
    enabled exactly when [is_seed] holds of the seed; the text, the
    options and the word list are untouched. *)
Theorem seed_on_edit_suggestions (l : Seed.SeedLayout) :
  let l' := Seed.on_edit tr seed_type bip39_is_checksum_valid l in
  (Seed.suggestions l' = true <->
   forall w, In w (removelast (Seed.split (Seed.seed_e_text l))) ->
             In w (Seed.wordlist l))
  /\ Seed.next_enabled l' = Seed.is_seed l (Seed.get_seed l)
  /\ Seed.seed_e_text l' = Seed.seed_e_text l
  /\ Seed.wordlist l' = Seed.wordlist l
  /\ Seed.is_bip39 l' = Seed.is_bip39 l
  /\ Seed.is_ext l' = Seed.is_ext l
  /\ Seed.seed_warning l' = Seed.seed_warning l.
Proof. exact (seed_on_edit_frame l). Qed.

Lemma truthy_iff (x : string) : Seed.truthy x = true <-> x <> EmptyString.
Proof. destruct x; cbn; split; congruence. Qed.

(** X6. Once the BIP39 box is checked, the Next button is enabled as
    soon as the text holds one character that is not white space, whatever
    [is_seed] the layout was built with; the warning about BIP39 seeds is
    shown and the label starts with BIP39. *)
Theorem bip39_checked_accepts_any_word (l : Seed.SeedLayout) :
  let l' := Seed.f tr seed_type bip39_is_checksum_valid true l in
  (Seed.next_enabled l' = true <-> ~ blank (Seed.seed_e_text l))
  /\ Seed.is_bip39 l' = true
  /\ Seed.seed_warning l' = Seed.bip39_warning tr
  /\ exists status, Seed.seed_type_label l' = ("BIP39 (" ++ status ++ ")")%string.
Proof.
  intros l'. subst l'. unfold Seed.f. rewrite seed_on_edit_eq.
  cbn [Seed.next_enabled Seed.is_bip39 Seed.seed_warning Seed.seed_type_label
       Seed.set_seed_warning Seed.set_suggestions Seed.set_next_enabled
       Seed.set_seed_type_label Seed.set_is_bip39 Seed.set_is_seed Seed.is_seed].
  split; [|split; [reflexivity|split; [reflexivity|]]].
  - change (Seed.get_seed (Seed.set_is_bip39 true (Seed.set_is_seed Seed.truthy l)))
      with (Seed.get_seed l).
    rewrite truthy_iff, get_seed_empty_blank. reflexivity.
  - unfold Seed.on_edit_label.
    cbn [Seed.is_bip39 Seed.set_is_bip39 negb].
    destruct (bip39_is_checksum_valid _) as [c w]. eexists. reflexivity.
Qed.

(** X7. Unchecking the BIP39 box gives the layout back the validator it
    was built with: [is_seed] is [saved_is_seed] again, the Next button
    follows it and the warning is cleared. *)
Theorem bip39_unchecked_restores_validator (l : Seed.SeedLayout) :
  let l' := Seed.f tr seed_type bip39_is_checksum_valid false
              (Seed.f tr seed_type bip39_is_checksum_valid true l) in
  (forall x, Seed.is_seed l' x = Seed.saved_is_seed l x)
  /\ Seed.next_enabled l' = Seed.saved_is_seed l (Seed.get_seed l)
  /\ Seed.is_bip39 l' = false
  /\ Seed.seed_warning l' = EmptyString
  /\ Seed.seed_e_text l' = Seed.seed_e_text l.
Proof.
  intros l'. subst l'. unfold Seed.f. rewrite !seed_on_edit_eq.
  repeat split.
Qed.

End SeedEdit.

Section SeedOptions.
Variable tr : string -> string.
Variable seed_type : string -> string.
Variable bip39_is_checksum_valid : string -> bool * bool.

(** The fields [f] sets, and those it leaves. *)
Lemma f_fields (b : bool) (l : Seed.SeedLayout) :
  let l' := Seed.f tr seed_type bip39_is_checksum_valid b l in
  Seed.is_seed l' = (if b then Seed.truthy else Seed.saved_is_seed l)
  /\ Seed.is_bip39 l' = b
  /\ Seed.saved_is_seed l' = Seed.saved_is_seed l
  /\ Seed.options l' = Seed.options l
  /\ Seed.is_ext l' = Seed.is_ext l
  /\ Seed.seed_e_text l' = Seed.seed_e_text l.
Proof.
  intros l'. subst l'. unfold Seed.f. rewrite seed_on_edit_eq. repeat split.
Qed.

Lemma clicks_spec (hb : bool) (cs : list Seed.Click) (d : Seed.Dialog)
      (l : Seed.SeedLayout) :
  Seed.mem "bip39" (Seed.options l) = hb ->
  Seed.cb_bip39 d = (if hb then Some (Seed.is_bip39 l) else None) ->
  coherent l ->
  let r := Seed.clicks tr seed_type bip39_is_checksum_valid cs d l in
  Seed.cb_bip39 (fst r) = (if hb then Some (Seed.is_bip39 (snd r)) else None)
  /\ coherent (snd r)
  /\ Seed.options (snd r) = Seed.options l
  /\ Seed.saved_is_seed (snd r) = Seed.saved_is_seed l
  /\ Seed.is_ext (snd r) = Seed.is_ext l
  /\ Seed.seed_e_text (snd r) = Seed.seed_e_text l
  /\ Seed.cb_ext (fst r) = option_map (xorb (odd_clicks Seed.ClickExt cs)) (Seed.cb_ext d)
  /\ (hb = true ->
      Seed.is_bip39 (snd r) = xorb (odd_clicks Seed.ClickBip39 cs) (Seed.is_bip39 l)).
Proof.
  revert d l. induction cs as [|c cs IH]; intros d l Hopt Hcb Hco r; subst r.
  - cbn. split; [exact Hcb|]. split; [exact Hco|].
    do 4 (split; [reflexivity|]). split.
    + destruct (Seed.cb_ext d) as [[|]|]; reflexivity.
    + intros _. now destruct (Seed.is_bip39 l).
  - cbn [Seed.clicks odd_clicks].
    destruct c; cbn [Seed.click].
    + (* the box of the extension *)
      destruct (Seed.cb_ext d) as [old|] eqn:Hext.
      * specialize (IH (Seed.mkDialog (Some (negb old)) (Seed.cb_bip39 d)) l
                       Hopt Hcb Hco).
        cbn zeta in IH. destruct IH as (H1 & H2 & H3 & H4 & H5 & H6 & H7 & H8).
        do 6 (split; [assumption|]). split; [|exact H8].
        rewrite H7. cbn. now destruct old, (odd_clicks Seed.ClickExt cs).
      * specialize (IH d l Hopt Hcb Hco).
        cbn zeta in IH. destruct IH as (H1 & H2 & H3 & H4 & H5 & H6 & H7 & H8).
        do 6 (split; [assumption|]). split; [|exact H8].
        rewrite H7, Hext. reflexivity.
    + (* the box of BIP39 *)
      destruct (Seed.cb_bip39 d) as [old|] eqn:Hb.
      * destruct hb; [|discriminate]. injection Hcb as ->.
        unfold Seed.set_checked_bip39. rewrite Hb.
        replace (Bool.eqb (Seed.is_bip39 l) (negb (Seed.is_bip39 l))) with false
          by now destruct (Seed.is_bip39 l).
        pose proof (f_fields (negb (Seed.is_bip39 l)) l) as F. cbn zeta in F.
        destruct F as (F1 & F2 & F3 & F4 & F5 & F6).
        match goal with
        | |- context [Seed.clicks _ _ _ cs ?d' ?l'] =>
            specialize (IH d' l')
        end.
        cbn zeta in IH. rewrite F2, F3, F4, F5, F6 in IH.
        destruct IH as (H1 & H2 & H3 & H4 & H5 & H6 & H7 & H8).
        { exact Hopt. }
        { reflexivity. }
        { split.
          - intros x. rewrite F1, F2, F3. now destruct (Seed.is_bip39 l).
          - intros _. rewrite F4. exact Hopt. }
        do 7 (split; [assumption|]).
        intros _. rewrite (H8 eq_refl).
        now destruct (Seed.is_bip39 l), (odd_clicks Seed.ClickBip39 cs).
      * destruct hb; [discriminate|].
        specialize (IH d l Hopt).
        cbn zeta in IH. destruct IH as (H1 & H2 & H3 & H4 & H5 & H6 & H7 & H8).
        { now rewrite Hb. }
        { exact Hco. }
        do 7 (split; [assumption|]). discriminate.
Qed.

(** The box of BIP39 is first set to the flag of the layout. *)
Lemma set_checked_spec (e : option bool) (l : Seed.SeedLayout) :
  coherent l ->
  let r := Seed.set_checked_bip39 tr seed_type bip39_is_checksum_valid
             (Seed.is_bip39 l) (Seed.mkDialog e (Some false)) l in
  Seed.cb_bip39 (fst r) = Some (Seed.is_bip39 (snd r))
  /\ Seed.cb_ext (fst r) = e
  /\ coherent (snd r)
  /\ Seed.options (snd r) = Seed.options l
  /\ Seed.is_ext (snd r) = Seed.is_ext l
  /\ Seed.seed_e_text (snd r) = Seed.seed_e_text l
  /\ Seed.is_bip39 (snd r) = Seed.is_bip39 l.
Proof.
  intros Hco r. subst r. unfold Seed.set_checked_bip39. cbn [Seed.cb_bip39 Seed.cb_ext].
  destruct (Seed.is_bip39 l) eqn:Hb; cbn [Bool.eqb fst snd Seed.cb_bip39 Seed.cb_ext].
  - pose proof (f_fields true l) as F. cbn zeta in F.
    destruct F as (F1 & F2 & F3 & F4 & F5 & F6).
    split; [now rewrite F2|]. split; [reflexivity|].
    split.
    { split.
      - intros x. now rewrite F1, F2.
      - intros _. rewrite F4. apply Hco. exact Hb. }
    auto.
  - split; [now rewrite Hb|]. split; [reflexivity|].
    split; [exact Hco|]. auto.
Qed.

(** X8. The options dialog keeps the validator and the BIP39 flag of the
    layout in step, whatever is clicked and however the dialog is left.
    On a layout with the BIP39 option the flag ends as the box was left,
    also when the dialog is closed without Ok: the toggles made in a
    dialog that is then cancelled are kept, whereas the extension flag is
    only written on Ok. *)
Theorem seed_options_coherent (cs : list Seed.Click) (accepted : bool)
        (l : Seed.SeedLayout) :
  coherent l ->
  let l' := Seed.seed_options tr seed_type bip39_is_checksum_valid cs accepted l in
  coherent l'
  /\ Seed.options l' = Seed.options l
  /\ Seed.seed_e_text l' = Seed.seed_e_text l
  /\ (Seed.mem "bip39" (Seed.options l) = true ->
      Seed.is_bip39 l' = xorb (odd_clicks Seed.ClickBip39 cs) (Seed.is_bip39 l))
  /\ (accepted = false -> Seed.is_ext l' = Seed.is_ext l)
  /\ (accepted = true ->
      Seed.is_ext l' =
      if Seed.mem "ext" (Seed.options l)
      then xorb (odd_clicks Seed.ClickExt cs) (Seed.is_ext l) else false).
Proof.
  intros Hco l'. subst l'. unfold Seed.seed_options.
  set (e := if Seed.mem "ext" (Seed.options l) then Some (Seed.is_ext l) else None).
  assert (match option_map (xorb (odd_clicks Seed.ClickExt cs)) e with
          | Some b => b
          | None => false
          end =
          if Seed.mem "ext" (Seed.options l)
          then xorb (odd_clicks Seed.ClickExt cs) (Seed.is_ext l) else false) as Hext
    by (subst e; destruct (Seed.mem "ext" (Seed.options l)); reflexivity).
  destruct (Seed.mem "bip39" (Seed.options l)) eqn:Hopt.
  - (* the box exists; it is first set to the flag *)
    pose proof (set_checked_spec e l Hco) as S. cbn zeta in S.
    destruct (Seed.set_checked_bip39 _ _ _ (Seed.is_bip39 l) _ l) as [d0 l0].
    cbn [fst snd] in S. destruct S as (I1 & I2 & I3 & I4 & I5 & I6 & I7).
    pose proof (clicks_spec true cs d0 l0) as C. cbn zeta in C.
    rewrite I4 in C. specialize (C Hopt I1 I3).
    destruct (Seed.clicks tr seed_type bip39_is_checksum_valid cs d0 l0) as [d1 l1].
    cbn [fst snd] in C. destruct C as (C1 & C2 & C3 & C4 & C5 & C6 & C7 & C8).
    specialize (C8 eq_refl). rewrite I7 in C8. rewrite I2 in C7.
    destruct accepted; cbn [negb].
    + rewrite C1, C7.
      split.
      { destruct C2 as [K1 K2]. split; [exact K1 | exact K2]. }
      split; [exact C3|].
      split; [exact (eq_trans C6 I6)|].
      split; [intros _; exact C8|].
      split; [discriminate|]. intros _. exact Hext.
    + split; [exact C2|].
      split; [exact C3|].
      split; [exact (eq_trans C6 I6)|].
      split; [intros _; exact C8|].
      split; [intros _; exact (eq_trans C5 I5) | discriminate].
  - (* no box for BIP39 *)
    pose proof (clicks_spec false cs (Seed.mkDialog e None) l Hopt eq_refl Hco) as C.
    cbn zeta in C.
    destruct (Seed.clicks _ _ _ cs _ l) as [d1 l1].
    cbn [fst snd] in C. destruct C as (C1 & C2 & C3 & C4 & C5 & C6 & C7 & C8).
    cbn [Seed.cb_ext] in C7.
    assert (Seed.is_bip39 l1 = false) as Hoff.
    { destruct (Seed.is_bip39 l1) eqn:Hb; [|reflexivity].
      destruct C2 as [_ C2]. specialize (C2 Hb). congruence. }
    destruct accepted; cbn [negb].
    + rewrite C1, C7.
      split.
      { destruct C2 as [K1 K2]. split.
        - intros x. cbn. rewrite K1, Hoff. reflexivity.
        - cbn. discriminate. }
      split; [exact C3|].
      split; [exact C6|].
      split; [discriminate|].
      split; [discriminate|]. intros _. exact Hext.
    + split; [exact C2|].
      split; [exact C3|].
      split; [exact C6|].
      split; [discriminate|].
      split; [intros _; exact C5 | discriminate].
Qed.


End SeedOptions.

Lemma seed_options_coherent_witness :
  Seed.is_bip39
    (Seed.seed_options (fun x => x) (fun _ => EmptyString) (fun _ => (false, false))
       [Seed.ClickBip39] false
       (Seed.mkSeed "abandon" true Seed.truthy Seed.truthy false false
                    ["ext"; "bip39"] [] EmptyString EmptyString false))
  = true.
Proof.
  refine (proj1 (proj2 (proj2 (proj2
            (seed_options_coherent (fun x => x) (fun _ => EmptyString)
               (fun _ => (false, false)) [Seed.ClickBip39] false
               (Seed.mkSeed "abandon" true Seed.truthy Seed.truthy false false
                            ["ext"; "bip39"] [] EmptyString EmptyString false) _))))
            eq_refl).
  split; [reflexivity | discriminate].
Defined.

(** * The word list of the completer *)

(** The order of Python on strings is transitive. *)
Lemma string_leb_trans (s1 s2 s3 : string) :
  String.leb s1 s2 = true -> String.leb s2 s3 = true -> String.leb s1 s3 = true.
Proof.
  revert s2 s3. induction s1 as [|a s1 IH]; intros [|b s2] [|c s3];
    unfold String.leb; cbn; try reflexivity; try discriminate.
  unfold Ascii.compare.
  destruct (N.compare_spec (N_of_ascii a) (N_of_ascii b)) as [E1|L1|G1];
    destruct (N.compare_spec (N_of_ascii b) (N_of_ascii c)) as [E2|L2|G2];
    destruct (N.compare_spec (N_of_ascii a) (N_of_ascii c)) as [E3|L3|G3];
    intros H1 H2; try reflexivity; try discriminate; try lia.
  exact (IH s2 s3 H1 H2).
Qed.


(** Two sorted lists with the same elements, counted, are the same list. *)
Lemma sorted_perm_unique (l1 l2 : list string) :
  StronglySorted string_le l1 ->
  StronglySorted string_le l2 ->
  Permutation l1 l2 ->
  l1 = l2.
Proof.
  intros S1. revert l2. induction S1 as [|a l1 S1 IH Ha]; intros l2 S2 P.
  - apply Permutation_nil in P. now subst.
  - destruct S2 as [|b l2 S2 Hb].
    + apply Permutation_sym, Permutation_nil in P. discriminate.
    + assert (a = b) as ->.
      { assert (In a (b :: l2)) as Ia by (apply (Permutation_in _ P); now left).
        assert (In b (a :: l1)) as Ib
          by (apply (Permutation_in _ (Permutation_sym P)); now left).
        destruct Ia as [->|Ia]; [reflexivity|].
        destruct Ib as [->|Ib]; [reflexivity|].
        rewrite Forall_forall in Ha, Hb.
        apply String.leb_antisym; [apply Ha | apply Hb]; assumption. }
      f_equal. apply IH; [exact S2|]. now apply Permutation_cons_inv in P.
Qed.

Lemma wordlist_of_sorted (bip39 enum : list string) :
  StronglySorted string_le (Seed.wordlist_of bip39 enum).
Proof.
  apply (Seed.StringSort.StronglySorted_sort (bip39 ++ enum)).
  intros x y z. apply string_leb_trans.
Qed.

Lemma wordlist_of_perm (bip39 enum : list string) :
  Permutation (bip39 ++ enum) (Seed.wordlist_of bip39 enum).
Proof. apply Seed.StringSort.Permuted_sort. Qed.

Lemma only_old_list_In (bip39 old : list string) (w : string) :
  In w (Seed.only_old_list bip39 old) <-> In w old /\ ~ In w bip39.
Proof.
  unfold Seed.only_old_list. rewrite nodup_In, filter_In, negb_true_iff.
  rewrite <- (mem_In w bip39). destruct (Seed.mem w bip39); intuition congruence.
Qed.

Lemma wordlist_members (bip39 old : list string) (l : Seed.SeedLayout) :
  let wl := Seed.wordlist (Seed.initialize_completer bip39 old l) in
  StronglySorted (fun x y => String.leb x y = true) wl
  /\ forall w, In w wl <-> In w bip39 \/ In w old.
Proof.
  cbn [Seed.wordlist Seed.initialize_completer]. split.
  - apply wordlist_of_sorted.
  - intros w. split.
    + intros H. apply (Permutation_in _ (Permutation_sym (wordlist_of_perm _ _))) in H.
      apply in_app_iff in H as [H|H]; [now left|].
      apply only_old_list_In in H. tauto.
    + intros H. apply (Permutation_in _ (wordlist_of_perm _ _)).
      apply in_app_iff.
      destruct (in_dec string_dec w bip39) as [Hb|Hb]; [now left|].
      destruct H as [H|H]; [contradiction|].
      right. apply only_old_list_In. tauto.
Qed.

(** X9. The word list [initialize_completer] builds is sorted in the
    order of Python on strings, and its words are exactly those of the
    BIP39 list and of the old list. *)
Theorem initialize_completer_sorted (bip39 old : list string) (l : Seed.SeedLayout) :
  let wl := Seed.wordlist (Seed.initialize_completer bip39 old l) in
  StronglySorted (fun x y => String.leb x y = true) wl
  /\ forall w, In w wl <-> In w bip39 \/ In w old.
Proof. exact (wordlist_members bip39 old l). Qed.

(** X10. The word list holds every occurrence of the BIP39 list and, once
    each, the words that only the old list has: its length is the sum of
    the two counts, no word of the BIP39 list is painted by the completer,
    and a BIP39 list without repetition gives a word list without
    repetition. *)
Theorem initialize_completer_counts (bip39 old : list string) (l : Seed.SeedLayout) :
  let wl := Seed.wordlist (Seed.initialize_completer bip39 old l) in
  Permutation (bip39 ++ Seed.only_old_list bip39 old) wl
  /\ NoDup (Seed.only_old_list bip39 old)
  /\ List.length wl = (List.length bip39 + List.length (Seed.only_old_list bip39 old))%nat
  /\ (forall w, Seed.highlighted bip39 old w = true <-> In w old /\ ~ In w bip39)
  /\ (NoDup bip39 -> NoDup wl).
Proof.
  cbn [Seed.wordlist Seed.initialize_completer].
  pose proof (wordlist_of_perm bip39 (Seed.only_old_list bip39 old)) as P.
  assert (NoDup (Seed.only_old_list bip39 old)) as N by apply NoDup_nodup.
  split; [exact P|]. split; [exact N|].
  split; [rewrite <- (Permutation_length P); apply length_app|].
  split.
  - intros w. unfold Seed.highlighted. rewrite mem_In. apply only_old_list_In.
  - intros Nb. apply (Permutation_NoDup P). apply NoDup_app; auto.
    intros a Ha Hin. apply only_old_list_In in Hin. tauto.
Qed.

Lemma initialize_completer_counts_witness :
  NoDup (Seed.wordlist
           (Seed.initialize_completer ["zoo"; "abandon"] ["zoo"; "a"; "a"]
              (Seed.mkSeed EmptyString true Seed.truthy Seed.truthy false false
                           [] [] EmptyString EmptyString false))).
Proof.
  apply (proj2 (proj2 (proj2 (proj2
           (initialize_completer_counts ["zoo"; "abandon"] ["zoo"; "a"; "a"]
              (Seed.mkSeed EmptyString true Seed.truthy Seed.truthy false false
                           [] [] EmptyString EmptyString false)))))).
  repeat constructor; cbn; intuition discriminate.
Defined.

(** X11. The word list does not depend on the order in which Python
    lists the set of the old-only words: any listing of that set, each
    word once, gives the same list. *)
Theorem wordlist_independent_of_set_order (bip39 old enum : list string) :
  NoDup enum ->
  (forall w, In w enum <-> In w old /\ ~ In w bip39) ->
  Seed.wordlist_of bip39 enum =
  Seed.wordlist_of bip39 (Seed.only_old_list bip39 old).
Proof.
  intros N H. apply sorted_perm_unique; try apply wordlist_of_sorted.
  rewrite <- (wordlist_of_perm bip39 enum).
  rewrite <- (wordlist_of_perm bip39 (Seed.only_old_list bip39 old)).
  apply Permutation_app_head.
  apply NoDup_Permutation; [exact N | apply NoDup_nodup|].
  intros w. rewrite H. symmetry. apply only_old_list_In.
Qed.

Lemma wordlist_independent_of_set_order_witness :
  Seed.wordlist_of ["b"; "a"] ["z"; "c"] =
  Seed.wordlist_of ["b"; "a"] (Seed.only_old_list ["b"; "a"] ["c"; "a"; "z"; "c"]).
Proof.
  apply (wordlist_independent_of_set_order ["b"; "a"] ["c"; "a"; "z"; "c"] ["z"; "c"]).
  - repeat constructor; cbn; intuition discriminate.
  - intros w. cbn. split.
    + intros [<-|[<-|[]]]; split; auto; intros [H|[H|[]]]; discriminate.
    + intros [[<-|[<-|[<-|[<-|[]]]]] Hn]; auto. exfalso. apply Hn. auto.
Defined.

(** X12. With the completer initialised, the suggestions stay enabled
    after an edit exactly when every word of the text but the last is a
    word of the BIP39 list or of the old list. *)
Theorem completer_suggestions (tr seed_type : string -> string)
        (bip39_is_checksum_valid : string -> bool * bool)
        (bip39 old : list string) (t : string) (l : Seed.SeedLayout) :
  Seed.suggestions
    (Seed.text_changed tr seed_type bip39_is_checksum_valid t
       (Seed.initialize_completer bip39 old l)) = true
  <-> forall w, In w (removelast (Seed.split t)) -> In w bip39 \/ In w old.
Proof.
  unfold Seed.text_changed.
  rewrite (proj1 (seed_on_edit_frame tr seed_type bip39_is_checksum_valid _)).
  cbn [Seed.seed_e_text Seed.set_seed_e_text Seed.wordlist Seed.initialize_completer].
  pose proof (proj2 (wordlist_members bip39 old l)) as M.
  cbn [Seed.wordlist Seed.initialize_completer] in M.
  split; intros H w Hw; apply M; auto.
Qed.

(** * The entry of keys *)

(** X13. [KeysLayout.on_edit] catches the instances of [Exception] that
    the validator raises, and only them.  It returns exactly when [is_valid]
    returned or raised an [Exception]; the Next button is then enabled
    exactly when [is_valid] returned true, the tool tip is empty exactly
    when [is_valid] returned, and after an [Exception] the button is
    disabled and the tool tip reads the translated "Error", a colon and the
    message.  An exception that is not an [Exception] leaves [on_edit] as it
    is, with the tool tip and the button as they were: a button that was
    enabled for the text of before stays enabled for the new text.  The
    text itself is never changed. *)
Theorem keys_on_edit_catches_exception_only
        (tr : string -> string) (is_valid : string -> Keys.Raise + bool)
        (l : Keys.KeysLayout) :
  let ending := fst (Keys.on_edit tr is_valid l) in
  let l' := snd (Keys.on_edit tr is_valid l) in
  (ending = Keys.Returns <->
   (exists v, is_valid (Keys.text_e l) = inr v)
   \/ (exists m, is_valid (Keys.text_e l) = inl (Keys.AnException m)))
  /\ (forall e, ending = Keys.Propagates e <->
                exists name, e = Keys.NotAnException name
                             /\ is_valid (Keys.text_e l) = inl e)
  /\ (ending = Keys.Returns ->
      (Keys.next_enabled l' = true <-> is_valid (Keys.text_e l) = inr true)
      /\ (Keys.tool_tip l' = EmptyString <->
          exists v, is_valid (Keys.text_e l) = inr v))
  /\ (forall m, is_valid (Keys.text_e l) = inl (Keys.AnException m) ->
                ending = Keys.Returns
                /\ Keys.next_enabled l' = false
                /\ Keys.tool_tip l' = (tr "Error" ++ ": " ++ m)%string)
  /\ (forall name, is_valid (Keys.text_e l) = inl (Keys.NotAnException name) ->
                   ending = Keys.Propagates (Keys.NotAnException name)
                   /\ l' = l)
  /\ Keys.text_e l' = Keys.text_e l.
Proof.
  cbn zeta. unfold Keys.on_edit, Keys.get_text.
  destruct (is_valid (Keys.text_e l)) as [[m|name]|v] eqn:E; cbn [fst snd].
  - split; [split; [eauto | reflexivity]|].
    split.
    { intros e. split; [discriminate|]. intros (name & -> & H). discriminate. }
    split.
    { intros _. cbn. split; [split; discriminate|]. split.
      - intros H. exfalso. destruct (tr "Error"); discriminate.
      - intros [v Hv]. discriminate. }
    split.
    { intros m' H. injection H as <-. cbn. auto. }
    split; [discriminate | reflexivity].
  - split.
    { split; [discriminate|]. intros [[v H]|[m H]]; discriminate. }
    split.
    { intros e. split.
      - intros H. injection H as <-. eauto.
      - intros (name' & -> & H). congruence. }
    split; [discriminate|].
    split; [discriminate|].
    split; [|reflexivity].
    intros name' H. injection H as <-. auto.
  - split; [split; [eauto | reflexivity]|].
    split.
    { intros e. split; [discriminate|]. intros (name & -> & H). discriminate. }
    split.
    { intros _. cbn. split; [split; congruence|]. split; eauto. }
    split; [discriminate|].
    split; [discriminate | reflexivity].
Qed.

(** * The PIN matrix of the command line *)

(** A letter of the matrix is translated into a digit that is not 0,
    anything else is a missing key. *)
Lemma getitem_cases (c : ascii) :
  (In c pin_letters /\ exists v, Trezor.getitem Trezor.t c = inr v /\ In v pin_digits)
  \/ (~ In c pin_letters
      /\ Trezor.getitem Trezor.t c = inl (KeyError (String c EmptyString))).
Proof.
  unfold Trezor.t, pin_letters, pin_digits. cbn [Trezor.getitem list_ascii_of_string].
  repeat match goal with
         | |- context [Ascii.eqb c ?x] =>
             destruct (Ascii.eqb_spec c x) as [->|?];
             [left; split; [cbn; tauto | eexists; split; [reflexivity | cbn; tauto]]|]
         end.
  right. split; [|reflexivity]. cbn. intuition congruence.
Qed.

Lemma getitem_injective (c1 c2 v : ascii) :
  Trezor.getitem Trezor.t c1 = inr v ->
  Trezor.getitem Trezor.t c2 = inr v ->
  c1 = c2.
Proof.
  intros H1 H2.
  destruct (getitem_cases c1) as [[I1 _]|[_ E1]]; [|congruence].
  destruct (getitem_cases c2) as [[I2 _]|[_ E2]]; [|congruence].
  unfold pin_letters in *. cbn in I1, I2.
  repeat (destruct I1 as [<-|I1]; [|]); try contradiction;
    repeat (destruct I2 as [<-|I2]; [|]); try contradiction;
    try reflexivity; vm_compute in H1, H2; congruence.
Qed.

Lemma translate_cons (x : ascii) (o : string) :
  Trezor.translate (String x o) =
  match Trezor.getitem Trezor.t x with
  | inl e => inl e
  | inr v =>
      match Trezor.translate o with
      | inl e => inl e
      | inr r => inr (String v r)
      end
  end.
Proof. reflexivity. Qed.

(** X14. [get_pin] returns a PIN exactly when every character typed is
    one of the letters a to i of the matrix; the PIN has then one digit
    per letter typed, none of them 0. *)
Theorem get_pin_succeeds_iff (msg o : string) :
  ((exists pin, snd (Trezor.get_pin msg o) = inr pin)
   <-> forall c, In c (list_ascii_of_string o) -> In c pin_letters)
  /\ (forall pin, snd (Trezor.get_pin msg o) = inr pin ->
                  String.length pin = String.length o
                  /\ forall d, In d (list_ascii_of_string pin) -> In d pin_digits).
Proof.
  unfold Trezor.get_pin. cbn [snd]. induction o as [|x o [IH1 IH2]].
  - split.
    + split; [intros _ c [] | intros _; now exists EmptyString].
    + intros pin E. injection E as <-. split; [reflexivity | intros d []].
  - rewrite translate_cons.
    destruct (getitem_cases x) as [[Ix (v & Ev & Iv)]|[Nx Ex]].
    + rewrite Ev. destruct (Trezor.translate o) as [e|r] eqn:Er.
      * split.
        -- split.
           ++ intros [pin E]. discriminate.
           ++ intros H. destruct (proj2 IH1) as [pin E]; [|discriminate].
              intros c Hc. apply H. now right.
        -- intros pin E. discriminate.
      * split.
        -- split; [|eauto].
           intros _ c [<-|Hc]; [exact Ix|].
           apply (proj1 IH1); [eauto | exact Hc].
        -- intros pin E. injection E as <-.
           destruct (IH2 r eq_refl) as [L D].
           cbn [String.length list_ascii_of_string]. split; [now rewrite L|].
           intros d [<-|Hd]; [exact Iv | exact (D d Hd)].
    + rewrite Ex. split.
      * split.
        -- intros [pin E]. discriminate.
        -- intros H. exfalso. apply Nx, H. now left.
      * intros pin E. discriminate.
Qed.

Lemma get_pin_succeeds_iff_witness :
  String.length "7893" = String.length "abci".
Proof.
  exact (proj1 (proj2 (get_pin_succeeds_iff "PIN" "abci") "7893" eq_refl)).
Defined.

(** X15. When a character typed is not a letter of the matrix, [get_pin]
    raises the [KeyError] of the first such character, whatever follows
    it. *)
Theorem get_pin_key_error (msg pre rest : string) (c : ascii) :
  (forall x, In x (list_ascii_of_string pre) -> In x pin_letters) ->
  ~ In c pin_letters ->
  snd (Trezor.get_pin msg (pre ++ String c rest)%string)
  = inl (KeyError (String c EmptyString)).
Proof.
  intros Hpre Hc. unfold Trezor.get_pin. cbn [snd].
  induction pre as [|x pre IH].
  - cbn [append]. rewrite translate_cons.
    destruct (getitem_cases c) as [[Ic _]|[_ E]]; [contradiction|]. now rewrite E.
  - cbn [append]. rewrite translate_cons.
    destruct (getitem_cases x) as [[_ (v & Ev & _)]|[Nx _]].
    + rewrite Ev, IH; [reflexivity|]. intros y Hy. apply Hpre. now right.
    + exfalso. apply Nx, Hpre. now left.
Qed.

Lemma get_pin_key_error_witness :
  snd (Trezor.get_pin "PIN" "ab1c") = inl (KeyError "1").
Proof.
  apply (get_pin_key_error "PIN" "ab" "c" "1"%char).
  - intros x H. cbn in H. unfold pin_letters. cbn. tauto.
  - unfold pin_letters. cbn. intuition discriminate.
Defined.

(** X16. Two different lines typed never give the same PIN: the PIN
    determines the letters that were typed. *)
Theorem get_pin_injective (msg1 msg2 o1 o2 pin : string) :
  snd (Trezor.get_pin msg1 o1) = inr pin ->
  snd (Trezor.get_pin msg2 o2) = inr pin ->
  o1 = o2.
Proof.
  unfold Trezor.get_pin. cbn [snd]. revert o2 pin.
  induction o1 as [|x o1 IH]; intros [|y o2] pin.
  - reflexivity.
  - intros E1. injection E1 as <-. rewrite translate_cons.
    destruct (Trezor.getitem Trezor.t y); [discriminate|].
    destruct (Trezor.translate o2); discriminate.
  - rewrite translate_cons. intros E1 E2. injection E2 as <-.
    destruct (Trezor.getitem Trezor.t x); [discriminate|].
    destruct (Trezor.translate o1); discriminate.
  - rewrite !translate_cons.
    destruct (Trezor.getitem Trezor.t x) as [|v] eqn:Ex; [discriminate|].
    destruct (Trezor.getitem Trezor.t y) as [|w] eqn:Ey;
      [destruct (Trezor.translate o1); discriminate|].
    destruct (Trezor.translate o1) as [|r1] eqn:E1; [discriminate|].
    destruct (Trezor.translate o2) as [|r2] eqn:E2; [discriminate|].
    intros H1 H2. injection H1 as <-. injection H2 as Hv Hr. subst w r2.
    f_equal.
    + exact (getitem_injective _ _ _ Ex Ey).
    + exact (IH _ _ eq_refl E2).
Qed.

Lemma get_pin_injective_witness : "abci" = "abci".
Proof.
  exact (get_pin_injective "PIN" "PIN" "abci" "abci" "7893" eq_refl eq_refl).
Defined.

(** * More on the entry of the secrets of the Solos *)

Section SoloMore.
Context {X : Externals}.

Ltac fields :=
  lazy beta iota delta
    [number_solo is_solo_pro address solos key next_enabled next_clicked
     back_clicked trace set_address set_solos set_key set_next_enabled
     set_next_clicked set_back_clicked log rewired].

Lemma not_reconstruct_shape (n : nat) (evs : list Event) :
  Forall not_reconstruct evs -> Forall (reconstruct_shape n) evs.
Proof.
  apply Forall_impl. intros [ | | | | | | ]; cbn; tauto.
Qed.

Lemma shares_of_shape (field : Solo -> string) (l : list Solo) :
  Forall cb_in_range l ->
  List.length (shares_of field l) = List.length l
  /\ Forall (fun p => (1 <= fst p <= 3)%Z) (shares_of field l).
Proof.
  intros H. unfold shares_of. rewrite length_map. split; [reflexivity|].
  rewrite Forall_map. revert H. apply Forall_impl.
  intros solo. unfold cb_in_range. cbn [fst]. destruct (cb solo); lia.
Qed.

Lemma get_key_events_shape (s : SoloLayout) :
  wf s = true ->
  Forall cb_in_range (solos s) ->
  Forall (reconstruct_shape (number_solo s)) (get_key_events s).
Proof.
  intros Hwf Hcb. unfold get_key_events. rewrite Forall_app. split.
  - destruct (number_solo s =? 1)%nat eqn:Hn.
    + apply not_reconstruct_shape.
      destruct (solos s); [constructor|].
      rewrite Forall_app. auto using verify_events_not_reconstruct.
    + assert (List.length (solos s) = number_solo s) as Hlen.
      { unfold wf in Hwf. apply andb_prop in Hwf as [Hwf _].
        apply andb_prop in Hwf as [Hwf _]. now apply Nat.eqb_eq in Hwf. }
      destruct (shares_of_shape secret1 _ Hcb) as [L1 F1].
      destruct (shares_of_shape secret2 _ Hcb) as [L2 F2].
      constructor; [cbn; split; [congruence|]; split; [exact F1 | now left]|].
      constructor; [cbn; split; [congruence|]; split; [exact F2 | now right]|].
      constructor.
  - repeat constructor.
Qed.

Lemma no_exit_app (a b : list Event) :
  (forall c, ~ In (EvLoopExit c) a) ->
  (forall c, ~ In (EvLoopExit c) b) ->
  forall c, ~ In (EvLoopExit c) (a ++ b).
Proof.
  intros Ha Hb c Hin. apply in_app_iff in Hin as [H|H]; [exact (Ha c H) | exact (Hb c H)].
Qed.

Lemma checked_events_no_exit (s : SoloLayout) (c : Z) :
  ~ In (EvLoopExit c) (checked_events s).
Proof.
  unfold checked_events. rewrite in_app_iff.
  pose proof (solo_events_no_exit (solos s) c). cbn. intuition discriminate.
Qed.

(** [check_key], run while it is connected, keeps the extended invariant. *)
Lemma check_key_inv2 (n : nat) (s : SoloLayout) :
  session_inv2 n s ->
  next_enabled s = true ->
  next_clicked s = [SlotCheckKey] ->
  exists s', @call unit unit check_key s = (Next tt, s') /\ session_inv2 n s'.
Proof.
  intros (Hinv & Hw & Hn & Hcb & Hsh) Hon Hnext.
  destruct (check_key_inv s Hinv Hon) as (s' & Hck & Hinv').
  exists s'. split; [exact Hck|].
  pose proof Hinv as (Hwf & _).
  destruct Hw as [(_ & Hback & Hno)|(Hx & _)]; [|congruence].
  assert (forall evs s1,
             number_solo s1 = number_solo s ->
             solos s1 = solos s ->
             trace s1 = trace s ++ evs ->
             Forall (reconstruct_shape n) evs ->
             wiring s1 ->
             session_inv s1 ->
             session_inv2 n s1) as K.
  { intros evs s1 E1 E2 E3 Hev Hw1 Hi1. unfold session_inv2.
    rewrite E1, E2, E3, Forall_app. auto 8. }
  destruct (forallb solo_ok (solos s)) eqn:Hok.
  - destruct (is_address (address s)) eqn:Haddr.
    + rewrite (check_key_decided _ Hwf Hok Haddr) in Hck.
      pose proof (get_key_events_shape s Hwf Hcb) as Hgk. rewrite Hn in Hgk.
      assert (Forall (reconstruct_shape n) (checked_events s)) as Hce.
      { apply not_reconstruct_shape. unfold checked_events. rewrite Forall_app.
        split; [apply solo_events_not_reconstruct | repeat constructor]. }
      destruct (get_key_result s); injection Hck as <-.
      * apply (K (checked_events s ++ get_key_events s ++ [EvLoopExit 2]));
          try reflexivity; auto.
        -- rewrite !Forall_app. repeat split; auto. repeat constructor.
        -- right. split; [reflexivity|]. split; [reflexivity|].
           exists 2%Z. fields. rewrite !in_app_iff. cbn. auto.
      * apply (K (checked_events s ++ get_key_events s ++ [EvShowError mismatch_msg]));
          try reflexivity; auto.
        -- rewrite !Forall_app. repeat split; auto. repeat constructor.
        -- left. split; [exact Hnext|]. split; [exact Hback|].
           fields. apply no_exit_app; [exact Hno|].
           apply no_exit_app; [apply checked_events_no_exit|].
           apply no_exit_app; [apply get_key_events_no_exit|].
           intros c [H|[]]. discriminate.
    + rewrite (check_key_invalid_address _ Hwf Hok Haddr) in Hck.
      injection Hck as <-.
      apply (K (checked_events s ++ [EvShowError invalid_address_msg]));
        try reflexivity; auto.
      * apply not_reconstruct_shape. unfold checked_events. rewrite !Forall_app.
        repeat split; [apply solo_events_not_reconstruct | repeat constructor
                       | repeat constructor].
      * left. split; [exact Hnext|]. split; [exact Hback|].
        fields. apply no_exit_app; [exact Hno|].
        apply no_exit_app; [apply checked_events_no_exit|].
        intros c [H|[]]. discriminate.
  - destruct (first_refused _ Hok) as (pre & solo & post & Hs & Hpre & Hbad).
    rewrite (check_key_refused _ _ _ _ Hwf Hs Hpre Hbad) in Hck.
    injection Hck as <-.
    apply (K (flat_map solo_events pre ++ refusal (number_solo s) solo));
      try reflexivity; auto.
    + apply not_reconstruct_shape. rewrite Forall_app.
      split; [apply solo_events_not_reconstruct | apply refusal_not_reconstruct].
    + left. split; [exact Hnext|]. split; [exact Hback|].
      fields. apply no_exit_app; [exact Hno|].
      apply no_exit_app; [intros c; apply solo_events_no_exit|].
      intros c. apply refusal_no_exit.
Qed.

Lemma edit_eq (s s1 : SoloLayout) :
  wf s1 = true ->
  (@modify unit (fun _ => s1) ;;; @call unit unit on_edit) s =
  (Next tt, set_next_enabled (edit_ok s1) s1).
Proof.
  intros Hwf. unfold bind, modify. now rewrite (on_edit_eq _ Hwf).
Qed.

Lemma replace_nth_Forall {A} (P : A -> Prop) (i : nat) (x : A) (l : list A) :
  P x -> Forall P l -> Forall P (replace_nth i x l).
Proof.
  intros Hx H. revert i. induction H as [|y l Hy H IH]; intros [|i]; cbn;
    constructor; auto.
Qed.

(** An edit followed by [on_edit] keeps the extended invariant. *)
Lemma edit_inv2 (n : nat) (s s1 s' : SoloLayout) :
  session_inv2 n s ->
  session_inv s' ->
  (@modify unit (fun _ => s1) ;;; @call unit unit on_edit) s = (Next tt, s') ->
  wf s1 = true ->
  number_solo s1 = number_solo s ->
  next_clicked s1 = next_clicked s ->
  back_clicked s1 = back_clicked s ->
  trace s1 = trace s ->
  Forall cb_in_range (solos s1) ->
  session_inv2 n s'.
Proof.
  intros (_ & Hw & Hn & _ & Hsh) Hinv' Hstep Hwf E1 E2 E3 E4 Hcb.
  rewrite (edit_eq _ _ Hwf) in Hstep. injection Hstep as <-.
  split; [exact Hinv'|].
  split.
  { unfold wiring in *.
    cbn [next_clicked back_clicked trace set_next_enabled].
    rewrite E2, E3, E4. exact Hw. }
  split; [cbn [number_solo set_next_enabled]; congruence|].
  split; [exact Hcb|]. cbn [trace set_next_enabled]. now rewrite E4.
Qed.

Lemma gui_step_inv2 (n : nat) (e : GuiEvent) (s : SoloLayout) :
  session_inv2 n s ->
  exists s', gui_step e s = (Next tt, s') /\ session_inv2 n s'.
Proof.
  intros Hinv2. pose proof Hinv2 as (Hinv & Hw & Hn & Hcb & Hsh).
  destruct (gui_step_inv e s Hinv) as (s' & Hstep & Hinv').
  exists s'. split; [exact Hstep|].
  pose proof Hinv as (Hwf & _).
  unfold gui_step, bind at 1, get at 1 in Hstep.
  destruct e as [t | i t | i t | i ind | | ].
  - destruct (t =? address s)%string; [now injection Hstep as <-|].
    apply (edit_inv2 n s (set_address t s) s' Hinv2 Hinv' Hstep); auto.
  - destruct (nth_error (solos s) i) as [solo|] eqn:Hnth; [|now injection Hstep as <-].
    destruct (slice_to 30 t =? secret1 solo)%string; [now injection Hstep as <-|].
    assert (cb_in_range solo) as Hr
      by (rewrite Forall_forall in Hcb; apply Hcb; now apply nth_error_In in Hnth).
    apply (edit_inv2 n s (set_solos _ s) s' Hinv2 Hinv' Hstep); auto.
    + now apply (wf_replace s i solo).
    + apply replace_nth_Forall; auto.
  - destruct (nth_error (solos s) i) as [solo|] eqn:Hnth; [|now injection Hstep as <-].
    destruct (slice_to 30 t =? secret2 solo)%string; [now injection Hstep as <-|].
    assert (cb_in_range solo) as Hr
      by (rewrite Forall_forall in Hcb; apply Hcb; now apply nth_error_In in Hnth).
    apply (edit_inv2 n s (set_solos _ s) s' Hinv2 Hinv' Hstep); auto.
    + now apply (wf_replace s i solo).
    + apply replace_nth_Forall; auto.
  - destruct (nth_error (solos s) i) as [solo|] eqn:Hnth; [|now injection Hstep as <-].
    destruct (cb solo) as [old|] eqn:Hold; [|now injection Hstep as <-].
    destruct ((0 <=? ind)%Z && (ind <? 3)%Z && negb (ind =? old)%Z)%bool eqn:Hg;
      [|now injection Hstep as <-].
    apply (edit_inv2 n s (set_solos _ s) s' Hinv2 Hinv' Hstep); auto.
    + apply (wf_replace s i solo); auto; cbn; congruence.
    + apply replace_nth_Forall; auto. unfold cb_in_range. cbn [cb].
      apply andb_prop in Hg as [Hg _]. apply andb_prop in Hg as [H0 H3].
      apply Z.leb_le in H0. apply Z.ltb_lt in H3. lia.
  - destruct (next_enabled s) eqn:Hon; [|now injection Hstep as <-].
    unfold emit_clicked in Hstep.
    destruct Hw as [(Hnx & Hbk & Hno)|(Hnx & Hbk & Hex)]; rewrite Hnx in Hstep;
      cbn [for_each run_slot] in Hstep.
    + destruct (check_key_inv2 n s Hinv2 Hon Hnx) as (s2 & Hck & Hinv2').
      unfold bind in Hstep. rewrite Hck in Hstep. cbn [ret] in Hstep.
      now injection Hstep as <-.
    + injection Hstep as <-.
      split; [exact Hinv'|].
      split.
      { right. split; [exact Hnx|]. split; [exact Hbk|].
        destruct Hex as [c Hc]. exists c. fields. apply in_app_iff. now left. }
      split; [exact Hn|]. split; [exact Hcb|].
      fields. rewrite Forall_app. split; [exact Hsh | repeat constructor].
  - unfold emit_clicked in Hstep.
    destruct Hw as [(Hnx & Hbk & Hno)|(Hnx & Hbk & Hex)]; rewrite Hbk in Hstep;
      cbn [for_each run_slot] in Hstep; injection Hstep as <-.
    + split; [exact Hinv'|].
      split.
      { right. split; [reflexivity|]. split; [reflexivity|].
        exists 1%Z. fields. apply in_app_iff. right. now left. }
      split; [exact Hn|]. split; [exact Hcb|].
      fields. rewrite Forall_app. split; [exact Hsh | repeat constructor].
    + split; [exact Hinv'|].
      split.
      { right. split; [exact Hnx|]. split; [exact Hbk|].
        destruct Hex as [c Hc]. exists c. fields. apply in_app_iff. now left. }
      split; [exact Hn|]. split; [exact Hcb|].
      fields. rewrite Forall_app. split; [exact Hsh | repeat constructor].
Qed.

Lemma gui_run_inv2 (n : nat) (evs : list GuiEvent) (s : SoloLayout) :
  session_inv2 n s ->
  exists s', gui_run evs s = (Next tt, s') /\ session_inv2 n s'.
Proof.
  revert s. induction evs as [|e evs IH]; intros s Hinv.
  - now exists s.
  - destruct (gui_step_inv2 n e s Hinv) as (s1 & Hstep & Hinv1).
    destruct (IH s1 Hinv1) as (s' & Hrun & Hinv').
    exists s'. split; [|exact Hinv'].
    unfold gui_run in *. cbn [for_each]. unfold bind. now rewrite Hstep.
Qed.

Lemma init_inv2 (pro : bool) : session_inv2 (if pro then 2 else 1)%nat (init pro).
Proof.
  split; [apply init_inv|].
  split.
  { left. split; [reflexivity|]. split; [reflexivity|]. intros c []. }
  split; [now destruct pro|].
  split; [|constructor].
  destruct pro; cbn; repeat constructor; unfold cb_in_range; cbn; lia.
Qed.

End SoloMore.

Lemma distinct_from_complete (l seen : list Z) :
  NoDup (seen ++ l) -> distinct_from seen l = true.
Proof.
  revert seen. induction l as [|i l IH]; intros seen H; [reflexivity|].
  cbn [distinct_from]. apply andb_true_intro. split.
  - apply negb_true_iff. destruct (existsb (Z.eqb i) seen) eqn:E; [|reflexivity].
    apply existsb_exists in E as (x & Hx & Hix). apply Z.eqb_eq in Hix. subst x.
    apply NoDup_remove_2 in H. exfalso. apply H. apply in_app_iff. now left.
  - apply IH. now rewrite <- app_assoc.
Qed.

(** X17. When [check_key] leaves the loop with code 2, the secrets and the
    address have all passed, and the field [key] of the layout holds a
    private key whose address is exactly the address entered; the buttons
    are those of the wizard again. *)
Theorem check_key_acceptance_sound {X : Externals} (s : SoloLayout) :
  wf s = true ->
  (forall c, ~ In (EvLoopExit c) (trace s)) ->
  let s' := snd (@call unit unit check_key s) in
  In (EvLoopExit 2) (trace s') ->
  exists k,
    key s' = Some k
    /\ address_from_private_key k = address s'
    /\ is_address (address s') = true
    /\ forallb solo_ok (solos s') = true
    /\ next_clicked s' = [SlotExit 2]
    /\ back_clicked s' = [SlotExit 1].
Proof.
  intros Hwf Hno. cbn zeta.
  destruct (forallb solo_ok (solos s)) eqn:Hok.
  - destruct (is_address (address s)) eqn:Haddr.
    + rewrite (check_key_decided _ Hwf Hok Haddr). cbn [snd].
      unfold get_key_result.
      destruct (address_from_private_key (derived_key s) =? address s)%string eqn:E.
      * intros _. exists (derived_key s). apply String.eqb_eq in E.
        repeat split; auto.
      * intros Hin. exfalso. cbn in Hin. apply in_app_iff in Hin as [Hin|Hin].
        { exact (Hno _ Hin). }
        apply in_app_iff in Hin as [Hin|Hin].
        { exact (checked_events_no_exit _ _ Hin). }
        apply in_app_iff in Hin as [Hin|Hin].
        { exact (get_key_events_no_exit _ _ Hin). }
        destruct Hin as [Hin|[]]. discriminate.
    + rewrite (check_key_invalid_address _ Hwf Hok Haddr). cbn [snd].
      intros Hin. exfalso. cbn in Hin. apply in_app_iff in Hin as [Hin|Hin].
      { exact (Hno _ Hin). }
      apply in_app_iff in Hin as [Hin|Hin].
      { exact (checked_events_no_exit _ _ Hin). }
      destruct Hin as [Hin|[]]. discriminate.
  - destruct (first_refused _ Hok) as (pre & solo & post & Hs & Hpre & Hbad).
    rewrite (check_key_refused _ _ _ _ Hwf Hs Hpre Hbad). cbn [snd].
    intros Hin. exfalso. cbn in Hin. apply in_app_iff in Hin as [Hin|Hin].
    { exact (Hno _ Hin). }
    apply in_app_iff in Hin as [Hin|Hin].
    { exact (solo_events_no_exit _ _ Hin). }
    exact (refusal_no_exit _ _ _ Hin).
Qed.

Lemma check_key_acceptance_sound_witness :
  exists k,
    key (snd (@call unit unit (@check_key sample) single_bare)) = Some k
    /\ @address_from_private_key sample k
       = address (snd (@call unit unit (@check_key sample) single_bare)).
Proof.
  assert (forall c, ~ In (EvLoopExit c) (trace single_bare)) as Hno
    by (intros c []).
  assert (In (EvLoopExit 2)
             (trace (snd (@call unit unit (@check_key sample) single_bare)))) as Hin
    by (vm_compute; tauto).
  destruct (@check_key_acceptance_sound sample single_bare eq_refl Hno Hin)
    as (k & H1 & H2 & _).
  exists k. split; [exact H1 | exact H2].
Defined.

(** X18. [SoloLayout.on_edit] changes nothing but the state of the Next
    button, which it enables exactly when every secret of every Solo
    passes [is_base58] and, with several Solos, no two combo boxes show the
    same number; neither the address nor the length of a secret counts. *)
Theorem solo_on_edit_enables_iff {X : Externals} (s : SoloLayout) :
  wf s = true ->
  exists s',
    @call unit unit on_edit s = (Next tt, s')
    /\ (next_enabled s' = true <->
        (forall solo, In solo (solos s) ->
                      is_base58 (secret1 solo) = true /\ is_base58 (secret2 solo) = true)
        /\ ((1 < number_solo s)%nat -> NoDup (indexes_of (solos s))))
    /\ number_solo s' = number_solo s
    /\ solos s' = solos s
    /\ address s' = address s
    /\ key s' = key s
    /\ next_clicked s' = next_clicked s
    /\ back_clicked s' = back_clicked s
    /\ trace s' = trace s.
Proof.
  intros Hwf. rewrite (on_edit_eq _ Hwf). eexists. split; [reflexivity|].
  split; [|repeat split].
  cbn [next_enabled set_next_enabled]. unfold edit_ok.
  rewrite andb_true_iff, forallb_forall. split.
  - intros [H1 H2]. split.
    + intros solo Hin. apply andb_prop. now apply H1.
    + intros Hlt. apply Nat.ltb_lt in Hlt. rewrite Hlt in H2.
      apply (distinct_from_NoDup _ []); [exact H2 | constructor].
  - intros [H1 H2]. split.
    + intros solo Hin. apply andb_true_intro. now apply H1.
    + destruct (1 <? number_solo s)%nat eqn:Hlt; [|reflexivity].
      apply distinct_from_complete. cbn [app]. apply H2. now apply Nat.ltb_lt.
Qed.

Lemma solo_on_edit_enables_iff_witness :
  exists s', @call unit unit (@on_edit sample) pro_bare = (Next tt, s').
Proof.
  destruct (@solo_on_edit_enables_iff sample pro_bare eq_refl) as (s' & H & _).
  exists s'. exact H.
Defined.

(** X19. Along every session the buttons follow the loop: as long as
    [loop.exit] was not called, Next runs [check_key] and Back runs [back];
    from the first [loop.exit] on, Next and Back are the handlers of the
    wizard (exit with 2, exit with 1) and [check_key] is not connected any
    more. *)
Theorem session_buttons_follow_exit {X : Externals}
        (pro : bool) (evs : list GuiEvent) :
  let s' := snd (gui_run evs (init pro)) in
  (next_clicked s' = [SlotCheckKey] /\ back_clicked s' = [SlotBack]
   /\ forall c, ~ In (EvLoopExit c) (trace s'))
  \/ (next_clicked s' = [SlotExit 2] /\ back_clicked s' = [SlotExit 1]
      /\ exists c, In (EvLoopExit c) (trace s')).
Proof.
  destruct (gui_run_inv2 _ evs (init pro) (init_inv2 pro)) as (s1 & Hrun & Hinv).
  cbn zeta. rewrite Hrun. cbn [snd]. apply Hinv.
Qed.

(** X20. Along every session started with Solo Pro, every call of
    [reconstruct] carries exactly two shares, numbered between 1 and 3,
    and asks for 28 or 14 characters; the layout keeps its two entries,
    whose combo boxes show one of their three items. *)
Theorem session_reconstruct_shape {X : Externals}
        (pro : bool) (evs : list GuiEvent) :
  let n := (if pro then 2 else 1)%nat in
  let s' := snd (gui_run evs (init pro)) in
  Forall (reconstruct_shape n) (trace s')
  /\ List.length (solos s') = n
  /\ number_solo s' = n
  /\ Forall cb_in_range (solos s').
Proof.
  destruct (gui_run_inv2 _ evs (init pro) (init_inv2 pro)) as (s1 & Hrun & Hinv).
  cbn zeta. rewrite Hrun. cbn [snd].
  destruct Hinv as ((Hwf & _) & _ & Hn & Hcb & Hsh).
  split; [exact Hsh|]. split; [|split; [exact Hn | exact Hcb]].
  unfold wf in Hwf. apply andb_prop in Hwf as [Hwf _].
  apply andb_prop in Hwf as [Hwf _]. apply Nat.eqb_eq in Hwf. congruence.
Qed.

Lemma display_secrets_from_eq (n count i : nat) :
  display_secrets_from n count i =
  map (fun j => mkSolo (if (1 <? n)%nat then Some (Z.of_nat j) else None)
                       EmptyString EmptyString)
      (seq i count).
Proof.
  revert i. induction count as [|count IH]; intros i; [reflexivity|].
  cbn [display_secrets_from seq map]. now rewrite IH.
Qed.

(** X21. [display_secrets] makes one entry per Solo, with empty secrets;
    with several Solos the combo boxes show the numbers of the Solos in
    order, all different, so that the layout starts without a repeated
    number; with one Solo there is no combo box. *)
Theorem display_secrets_spec (n : nat) :
  List.length (display_secrets n) = n
  /\ Forall (fun solo => secret1 solo = EmptyString /\ secret2 solo = EmptyString)
            (display_secrets n)
  /\ indexes_of (display_secrets n) =
     (if (1 <? n)%nat then map Z.of_nat (seq 0 n) else [])
  /\ NoDup (indexes_of (display_secrets n)).
Proof.
  unfold display_secrets. rewrite display_secrets_from_eq.
  assert (indexes_of
            (map (fun j => mkSolo (if (1 <? n)%nat then Some (Z.of_nat j) else None)
                                  EmptyString EmptyString) (seq 0 n))
          = if (1 <? n)%nat then map Z.of_nat (seq 0 n) else []) as E.
  { unfold indexes_of. generalize (seq 0 n) as l.
    destruct (1 <? n)%nat; induction l as [|j l IH]; cbn; congruence. }
  split; [now rewrite length_map, length_seq|].
  split; [rewrite Forall_map; apply Forall_forall; intros; cbn; auto|].
  split; [exact E|]. rewrite E.
  destruct (1 <? n)%nat; [|constructor].
  apply Injective_map_NoDup; [intros x y; lia | apply seq_NoDup].
Qed.
